(** * A shallow embedding of the re-configurable logger (logger.c, logger.h)

    The C translation unit keeps three process-wide objects: the dispatch
    table [logHandlers], the sink [logOutput] and the flag [initialized].
    They are gathered in the record [World]; every C function becomes a
    transformer of that record.  Two things can go wrong in C without the
    program noticing, reading through a null pointer and indexing outside
    an array; both are undefined behaviour and are made visible here as
    the [UB] outcome of [Result]. *)

From Stdlib Require Import ZArith Ascii String List Lia.
From stdpp Require Import base list strings.

Local Open Scope Z_scope.

(** ** Outcomes of a C computation *)

Inductive Fault : Type :=
  | NullDeref      (* a null pointer was read through *)
  | OutOfBounds.   (* an array was indexed outside its extent *)

Inductive Result (A : Type) : Type :=
  | Ok (a : A)
  | UB (f : Fault).

Arguments Ok {A} a.
Arguments UB {A} f.

Definition bindR {A B : Type} (r : Result A) (k : A -> Result B) : Result B :=
  match r with
  | Ok a => k a
  | UB f => UB f
  end.

Notation "'letR' x ':=' e 'in' k" := (bindR e (fun x => k))
  (at level 10, x name, e at level 100, k at level 200).

(** ** Constants and array types of logger.h *)

Definition NUM_LOG_CATS : nat := 5.
Definition MAX_CHARS_IN_LOG_CAT : nat := 8.
Definition MAX_CHARS_IN_MSG : nat := 60.
Definition MAX_CHARS_IN_DATE : nat := 30.
Definition MAX_CHARS_IN_FINAL_MSG : nat :=
  (MAX_CHARS_IN_MSG + MAX_CHARS_IN_DATE + MAX_CHARS_IN_LOG_CAT + 12)%nat.

(** [typedef char LogCategory[MAX_CHARS_IN_LOG_CAT + 1]] and its siblings:
    only the number of bytes matters. *)
Definition sizeof_LogCategory : nat := (MAX_CHARS_IN_LOG_CAT + 1)%nat.
Definition sizeof_MsgStr : nat := (MAX_CHARS_IN_MSG + 2)%nat.
Definition sizeof_DateStr : nat := (MAX_CHARS_IN_DATE + 1)%nat.
Definition sizeof_LogEntryStr : nat := (MAX_CHARS_IN_FINAL_MSG + 1)%nat.

(** ** Characters, C strings and character arrays *)

Definition NUL : ascii := "000"%char.
Definition TAB : ascii := "009"%char.
Definition LF : ascii := "010"%char.
Definition SPACE : ascii := " "%char.

Definition bytes (s : string) : list ascii := list_ascii_of_string s.

(** A [const char *] that is not null denotes the characters before the
    first NUL; a [string] stands for such a value when it holds no NUL. *)
Definition cstring (s : string) : Prop :=
  forallb (fun c => negb (Ascii.eqb c NUL)) (bytes s) = true.

(** [char a[size] = "init"]: the literal, then zeros up to [size]. *)
Definition char_array (size : nat) (init : string) : list ascii :=
  take size (bytes init ++ replicate size NUL).

(** [a[i] = c] on an array object: defined only inside the array. *)
Definition store (a : list ascii) (i : Z) (c : ascii) : Result (list ascii) :=
  if (0 <=? i) && (i <? Z.of_nat (length a))
  then Ok (<[Z.to_nat i := c]> a)
  else UB OutOfBounds.

(** [s[i]] on a string argument: the characters and the terminating NUL
    can be read, nothing before or after them. *)
Definition load (s : string) (i : Z) : Result ascii :=
  if (0 <=? i) && (i <=? Z.of_nat (String.length s))
  then Ok (default NUL (bytes s !! Z.to_nat i))
  else UB OutOfBounds.

(** A [size_t] stored into an [int] (32 bits, two's complement).  The
    sums [MSG_NUM_CHARS - 1] and [MSG_NUM_CHARS + 1] are left unwrapped:
    where they would overflow they index outside every array anyway. *)
Definition to_int (z : Z) : Z := (z + 2 ^ 31) mod 2 ^ 32 - 2 ^ 31.

(** *** The parts of the C library the program calls *)

Definition strlen (s : option string) : Result Z :=
  match s with
  | None => UB NullDeref
  | Some s => Ok (Z.of_nat (String.length s))
  end.

(** [strcmp]: zero exactly on equal strings, otherwise the sign of the
    first difference (characters compared as [unsigned char]). *)
Definition strcmp (s1 s2 : string) : Z :=
  match String.compare s1 s2 with
  | Eq => 0
  | Lt => -1
  | Gt => 1
  end.

(** [strncpy(dst, src, n)]: exactly [n] bytes are written, the characters
    of [src] and then zeros; no terminator is added when [src] has [n]
    characters or more. *)
Definition strncpy (dst : list ascii) (src : string) (n : nat)
  : Result (list ascii) :=
  if (n <=? length dst)%nat
  then Ok (take n (bytes src ++ replicate n NUL) ++ drop n dst)
  else UB OutOfBounds.

(** [sprintf(dst, ...)] once the text to print is known: the text and a
    terminator are written from the start of [dst]. *)
Definition sprintf (dst : list ascii) (text : string) : Result (list ascii) :=
  if (String.length text + 1 <=? length dst)%nat
  then Ok (bytes text ++ NUL :: drop (String.length text + 1) dst)
  else UB OutOfBounds.

(** Reading an array as a string ([%s]): up to the first NUL, which must
    lie inside the array. *)
Fixpoint read_cstr (a : list ascii) : Result string :=
  match a with
  | [] => UB OutOfBounds
  | c :: rest =>
      if Ascii.eqb c NUL then Ok EmptyString
      else letR s := read_cstr rest in Ok (String c s)
  end.

(** [%-*s] with width [w]: left-justified, padded with spaces. *)
Definition pad_right (w : nat) (s : string) : string :=
  s +:+ string_of_list_ascii (replicate (w - String.length s) SPACE).

Definition is_terminal (c : ascii) : bool :=
  Ascii.eqb c "."%char || Ascii.eqb c "!"%char || Ascii.eqb c "?"%char.

(** [strftime(dst, max, "%c", tm)], [text] being the locale's rendering
    of the time.  When the text and its terminator fit in [max] bytes
    they are written and the rest of [dst] is untouched.  When they do not
    fit, [strftime] returns 0 and the conversion has failed: the array is
    left as it was, so that a date array initialized to the empty string
    still reads as the empty string. *)
Definition strftime (dst : list ascii) (max : nat) (text : string)
  : Result (list ascii) :=
  if (max <=? length dst)%nat then
    if (String.length text <? max)%nat
    then Ok (bytes text ++ NUL :: drop (String.length text + 1) dst)
    else Ok dst
  else UB OutOfBounds.

(** ** logFormat (logger.c, lines 222-268)

    [clock] is the answer of the C library when asked for the local time
    in the format [%c], [None] when [time] or [localtime] fails; [dest] is
    the capacity in bytes of the caller's buffer, [None] for a null
    pointer.  The result is the text written to [dest]. *)

Definition logFormat_catField (cat : option string) : Result (list ascii) :=
  let catField := char_array sizeof_LogCategory "" in
  match cat with
  | Some cat => sprintf catField (cat +:+ ":")
  | None => Ok catField
  end.

Definition logFormat_msgField (msg : option string) (MSG_NUM_CHARS : Z)
  : Result (list ascii) :=
  let msgField := char_array sizeof_MsgStr "(null)" in
  match msg with
  | Some msg =>
      letR msgField := strncpy msgField msg MAX_CHARS_IN_MSG in
      letR last := load msg (MSG_NUM_CHARS - 1) in
      if negb (is_terminal last)
      then
        letR msgField := store msgField MSG_NUM_CHARS "."%char in
        store msgField (MSG_NUM_CHARS + 1) NUL
      else Ok msgField
  | None => Ok msgField
  end.

Definition logFormat_dateField (clock : option string) : Result (list ascii) :=
  let dateField := char_array sizeof_DateStr "" in
  match clock with
  | Some text => strftime dateField MAX_CHARS_IN_DATE text
  | None => Ok dateField
  end.

Definition TABS : string := String TAB (String TAB EmptyString).

Definition logFormat (clock : option string) (dest : option nat)
    (cat msg : option string) : Result (option string) :=
  letR len := strlen msg in
  let MSG_NUM_CHARS := to_int len in
  letR catField := logFormat_catField cat in
  letR msgField := logFormat_msgField msg MSG_NUM_CHARS in
  match dest with
  | Some capacity =>
      letR dateField := logFormat_dateField clock in
      letR dateText := read_cstr dateField in
      letR catText := read_cstr catField in
      letR msgText := read_cstr msgField in
      let line :=
        dateText +:+ TABS +:+ pad_right MAX_CHARS_IN_LOG_CAT catText
        +:+ TABS +:+ msgText in
      if (String.length line + 1 <=? capacity)%nat
      then Ok (Some line)
      else UB OutOfBounds
  | None => Ok None
  end.

(** ** The process-wide state *)

(** An open stream is known by a number; [None] is the null pointer. *)
Definition FILE : Type := nat.

(** Values of type [void ( * )(int cond, const char *msg)]: the addresses of
    the five default handlers, or of a function of the caller.  What a
    caller's function does is outside this translation unit; a call to it
    is recorded in the trace and leaves the logger's objects alone. *)
Inductive Handler : Type :=
  | fn_defaultVerboseHandler
  | fn_defaultInfoHandler
  | fn_defaultWarningHandler
  | fn_defaultErrorHandler
  | fn_defaultFatalHandler
  | fn_custom (id : nat).

Inductive ExitFn : Type :=
  | fn_closeLog.

(** What the outside sees. *)
Inductive Event : Type :=
  | Fprintf (stream : FILE) (text : string)
  | Fclose (stream : FILE)
  | CustomCall (id : nat) (cond : Z) (msg : option string).

Record World : Type := mkWorld {
  logHandlers : list (option Handler);   (* logHandlers[NUM_LOG_CATS] *)
  logOutput : option FILE;
  initialized : Z;
  exit_fns : list ExitFn;                (* registered with atexit *)
  clock : option string;                 (* the local time as [%c] text *)
  trace : list Event
}.

(** State at program start: [logHandlers = {NULL}], [logOutput = NULL],
    [initialized = 0]. *)
Definition initial_world (clock : option string) : World :=
  mkWorld (replicate NUM_LOG_CATS None) None 0 [] clock [].

(** The table is an array of [NUM_LOG_CATS] pointers. *)
Definition wf (w : World) : Prop := length (logHandlers w) = NUM_LOG_CATS.

Definition set_logHandlers (hs : list (option Handler)) (w : World) : World :=
  mkWorld hs (logOutput w) (initialized w) (exit_fns w) (clock w) (trace w).
Definition set_logOutput (out : option FILE) (w : World) : World :=
  mkWorld (logHandlers w) out (initialized w) (exit_fns w) (clock w) (trace w).
Definition set_initialized (v : Z) (w : World) : World :=
  mkWorld (logHandlers w) (logOutput w) v (exit_fns w) (clock w) (trace w).
Definition add_exit_fn (f : ExitFn) (w : World) : World :=
  mkWorld (logHandlers w) (logOutput w) (initialized w) (exit_fns w ++ [f])
          (clock w) (trace w).
Definition record (e : Event) (w : World) : World :=
  mkWorld (logHandlers w) (logOutput w) (initialized w) (exit_fns w)
          (clock w) (trace w ++ [e]).

(** ** Computations over the state that may hit undefined behaviour *)

Definition M (A : Type) : Type := World -> Result (A * World).

Definition ret {A : Type} (a : A) : M A := fun w => Ok (a, w).

Definition bind {A B : Type} (m : M A) (k : A -> M B) : M B :=
  fun w =>
    match m w with
    | Ok (a, w') => k a w'
    | UB f => UB f
    end.

Definition gets {A : Type} (f : World -> A) : M A := fun w => Ok (f w, w).
Definition modify (f : World -> World) : M unit := fun w => Ok (tt, f w).
Definition lift {A : Type} (r : Result A) : M A :=
  fun w => match r with Ok a => Ok (a, w) | UB f => UB f end.

Declare Scope logger_scope.
Delimit Scope logger_scope with logger.
Notation "x <- m ;; k" := (bind m (fun x => k))
  (at level 100, m at next level, right associativity) : logger_scope.
Notation "m ;; k" := (bind m (fun _ => k))
  (at level 100, right associativity) : logger_scope.
Local Open Scope logger_scope.

(** C truth of an [int]. *)
Definition truthy (v : Z) : bool := negb (v =? 0).

Definition is_null {A : Type} (p : option A) : bool :=
  match p with
  | None => true
  | Some _ => false
  end.

(** [fprintf(stream, "%s\n", s)] *)
Definition fprintf_line (stream : option FILE) (s : string) : M unit :=
  match stream with
  | Some f => modify (record (Fprintf f (s +:+ String LF EmptyString)))
  | None => lift (UB NullDeref)
  end.

(** A call of [logFormat] on a local [LogEntryStr]. *)
Definition logFormat_local (cat msg : option string) : M string :=
  now <- gets clock ;;
  r <- lift (logFormat now (Some sizeof_LogEntryStr) cat msg) ;;
  match r with
  | Some formattedMsg => ret formattedMsg
  | None => lift (UB NullDeref)
  end.

(** ** The default handlers (logger.c, lines 167-220) *)

Definition defaultVerboseHandler (cond : Z) (msg : option string) : M unit :=
  out <- gets logOutput ;;
  if truthy cond && negb (is_null out) then
    formattedMsg <- logFormat_local (Some "VERBOSE") msg ;;
    fprintf_line out formattedMsg
  else ret tt.

Definition defaultInfoHandler (cond : Z) (msg : option string) : M unit :=
  out <- gets logOutput ;;
  if truthy cond && negb (is_null out) then
    formattedMsg <- logFormat_local (Some "INFO") msg ;;
    fprintf_line out formattedMsg
  else ret tt.

Definition defaultWarningHandler (cond : Z) (msg : option string) : M unit :=
  out <- gets logOutput ;;
  if truthy cond && negb (is_null out) then
    formattedMsg <- logFormat_local (Some "WARNING") msg ;;
    fprintf_line out formattedMsg
  else ret tt.

Definition defaultErrorHandler (cond : Z) (msg : option string) : M unit :=
  out <- gets logOutput ;;
  if truthy cond && negb (is_null out) then
    formattedMsg <- logFormat_local (Some "ERROR") msg ;;
    fprintf_line out formattedMsg
  else ret tt.

Definition defaultFatalHandler (cond : Z) (msg : option string) : M unit :=
  out <- gets logOutput ;;
  if truthy cond && negb (is_null out) then
    formattedMsg <- logFormat_local (Some "FATAL") msg ;;
    fprintf_line out formattedMsg
  else ret tt.

(** A call through a pointer of the table. *)
Definition call (h : Handler) (cond : Z) (msg : option string) : M unit :=
  match h with
  | fn_defaultVerboseHandler => defaultVerboseHandler cond msg
  | fn_defaultInfoHandler => defaultInfoHandler cond msg
  | fn_defaultWarningHandler => defaultWarningHandler cond msg
  | fn_defaultErrorHandler => defaultErrorHandler cond msg
  | fn_defaultFatalHandler => defaultFatalHandler cond msg
  | fn_custom id => modify (record (CustomCall id cond msg))
  end.

(** ** The table of names and the dispatch table *)

Definition UPPER_INDEX : nat := 0.
Definition LOWER_INDEX : nat := 1.

Definition VERBOSE_IDX : nat := 0.
Definition INFO_IDX : nat := 1.
Definition WARNING_IDX : nat := 2.
Definition ERROR_IDX : nat := 3.
Definition FATAL_IDX : nat := 4.

Definition VALID_CATS : list (list string) :=
  [ ["VERBOSE"; "verbose"];
    ["INFO"; "info"];
    ["WARNING"; "warning"];
    ["ERROR"; "error"];
    ["FATAL"; "fatal"] ].

(** [VALID_CATS[index][spelling]]; every use has [index < NUM_LOG_CATS]. *)
Definition valid_cat (index spelling : nat) : string :=
  default EmptyString (VALID_CATS !! index ≫= (.!! spelling)).

(** [logHandlers[index]]; every use has [index < NUM_LOG_CATS]. *)
Definition handler_at (index : nat) : M (option Handler) :=
  gets (fun w => default None (logHandlers w !! index)).

(** [if (logHandlers[index] != NULL) logHandlers[index](cond, msg);] *)
Definition dispatch (index : nat) (cond : Z) (msg : option string) : M unit :=
  h <- handler_at index ;;
  match h with
  | Some h => call h cond msg
  | None => ret tt
  end.

(** ** The per-category functions (logger.c, lines 101-139) *)

Definition verbose (cond : Z) (msg : option string) : M unit :=
  dispatch VERBOSE_IDX cond msg.

Definition info (cond : Z) (msg : option string) : M unit :=
  dispatch INFO_IDX cond msg.

Definition warning (cond : Z) (msg : option string) : M unit :=
  dispatch WARNING_IDX cond msg.

Definition error (cond : Z) (msg : option string) : M unit :=
  dispatch ERROR_IDX cond msg.

Definition fatal (cond : Z) (msg : option string) : M unit :=
  dispatch FATAL_IDX cond msg.

(** ** logger (logger.c, lines 70-99)

    [logger_for n index catValid] is the [for] loop with [n] iterations
    left to unfold; the loop is entered with [index = 0] and leaves at
    [index = NUM_LOG_CATS] at the latest, so [NUM_LOG_CATS] unfoldings
    run it to its end. *)

Fixpoint logger_for (n index : nat) (catValid : Z) (cat : string)
    (msg : option string) : M Z :=
  match n with
  | O => ret catValid
  | S n' =>
      if (index <? NUM_LOG_CATS)%nat && negb (truthy catValid) then
        catValid <-
          (if truthy (strcmp cat (valid_cat index UPPER_INDEX))
              || truthy (strcmp cat (valid_cat index LOWER_INDEX))
           then dispatch index 1 msg ;; ret 1
           else ret catValid) ;;
        logger_for n' (S index) catValid cat msg
      else ret catValid
  end.

Definition logger (cat msg : option string) : M unit :=
  init <- gets initialized ;;
  if truthy init then
    catValid <-
      match cat with
      | Some cat => logger_for NUM_LOG_CATS 0 0 cat msg
      | None => ret 0
      end ;;
    if negb (truthy catValid)
    then warning 1 (Some "Invalid category provided. Message is not logged.")
    else ret tt
  else ret tt.

(** ** setHandler (logger.c, lines 141-165) *)

Fixpoint setHandler_for (n index : nat) (catValid : Z) (cat : string)
    (handler : option Handler) : M Z :=
  match n with
  | O => ret catValid
  | S n' =>
      if (index <? NUM_LOG_CATS)%nat && negb (truthy catValid) then
        catValid <-
          (if negb (truthy (strcmp cat (valid_cat index UPPER_INDEX)))
              || negb (truthy (strcmp cat (valid_cat index LOWER_INDEX)))
           then
             modify (fun w =>
               set_logHandlers (<[index := handler]> (logHandlers w)) w) ;;
             ret 1
           else ret catValid) ;;
        setHandler_for n' (S index) catValid cat handler
      else ret catValid
  end.

Definition setHandler (cat : option string) (handler : option Handler) : M Z :=
  init <- gets initialized ;;
  catValid <-
    match cat with
    | Some cat =>
        if truthy init
        then setHandler_for NUM_LOG_CATS 0 0 cat handler
        else ret 0
    | None => ret 0
    end ;;
  (if negb (truthy catValid)
   then warning 1 (Some "Invalid category provided. Handler is not set.")
   else ret tt) ;;
  ret catValid.

(** ** initLog and closeLog (logger.c, lines 51-68 and 273-279) *)

Definition initLog (dest : option FILE) : M Z :=
  init <- gets initialized ;;
  (if negb (is_null dest) && negb (truthy init) then
     modify (set_logOutput dest) ;;
     modify (set_initialized 1) ;;
     setHandler (Some "VERBOSE") None ;;
     setHandler (Some "INFO") (Some fn_defaultInfoHandler) ;;
     setHandler (Some "WARNING") (Some fn_defaultWarningHandler) ;;
     setHandler (Some "ERROR") (Some fn_defaultErrorHandler) ;;
     setHandler (Some "FATAL") (Some fn_defaultFatalHandler) ;;
     modify (add_exit_fn fn_closeLog)
   else ret tt) ;;
  gets initialized.


(** ** logStart (logger.h): the macro
    [if (initLog(dest)) info(1, "Logger has been successfully initialized.")] *)

Definition logStart (dest : option FILE) : M unit :=
  started <- initLog dest ;;
  if truthy started
  then info 1 (Some "Logger has been successfully initialized.")
  else ret tt.

(** ** Process exit

    At exit the C library calls the functions registered with [atexit],
    the last registered first. *)




(** * Vocabulary of the statements *)

(** A label the category array has room for, with its colon. *)
Definition label_fits (cat : option string) : Prop :=
  match cat with
  | Some cat => cstring cat /\ (String.length cat < MAX_CHARS_IN_LOG_CAT)%nat
  | None => True
  end.

Definition label_text (cat : option string) : string :=
  match cat with
  | Some cat => cat +:+ ":"
  | None => EmptyString
  end.

(** The message as it is rendered when it fits. *)
Definition punctuated (msg : string) (last : ascii) : string :=
  if is_terminal last then msg else msg +:+ ".".

(** A message the message array has room for: a non-empty C string of at
    most [MAX_CHARS_IN_MSG] characters, [c] being its last one. *)
Definition msg_fits (msg : string) (c : ascii) : Prop :=
  cstring msg /\ last (bytes msg) = Some c
  /\ (String.length msg <= MAX_CHARS_IN_MSG)%nat.

(** [cat] is the uppercase or the lowercase spelling of category [index]. *)
Definition names_category (cat : string) (index : nat) : Prop :=
  (index < NUM_LOG_CATS)%nat
  /\ (cat = valid_cat index UPPER_INDEX \/ cat = valid_cat index LOWER_INDEX).

(** The same objects, with more events in the trace. *)
Definition log_events (evs : list Event) (w : World) : World :=
  mkWorld (logHandlers w) (logOutput w) (initialized w) (exit_fns w)
          (clock w) (trace w ++ evs).


(** The invariant of the dispatch table: no handler before initialization. *)
Definition table_guarded (w : World) : Prop :=
  initialized w = 0 -> Forall (fun slot => slot = None) (logHandlers w).

(** The operations of the interface, as one type. *)
Inductive Operation : Type :=
  | op_initLog (dest : option FILE)
  | op_logger (cat msg : option string)
  | op_setHandler (cat : option string) (handler : option Handler)
  | op_verbose (cond : Z) (msg : option string)
  | op_info (cond : Z) (msg : option string)
  | op_warning (cond : Z) (msg : option string)
  | op_error (cond : Z) (msg : option string)
  | op_fatal (cond : Z) (msg : option string).

Definition discard {A : Type} (m : M A) : World -> Result World :=
  fun w =>
    match m w with
    | Ok (_, w') => Ok w'
    | UB f => UB f
    end.

Definition run (op : Operation) : World -> Result World :=
  match op with
  | op_initLog dest => discard (initLog dest)
  | op_logger cat msg => discard (logger cat msg)
  | op_setHandler cat handler => discard (setHandler cat handler)
  | op_verbose cond msg => discard (verbose cond msg)
  | op_info cond msg => discard (info cond msg)
  | op_warning cond msg => discard (warning cond msg)
  | op_error cond msg => discard (error cond msg)
  | op_fatal cond msg => discard (fatal cond msg)
  end.

(** A sequence of operations, one after the other. *)
Fixpoint run_all (ops : list Operation) (w : World) : Result World :=
  match ops with
  | [] => Ok w
  | op :: ops' =>
      match run op w with
      | Ok w' => run_all ops' w'
      | UB f => UB f
      end
  end.

(** The five per-category functions with the slot each one reads. *)
Definition emitters : list (nat * (Z -> option string -> M unit)) :=
  [ (VERBOSE_IDX, verbose); (INFO_IDX, info); (WARNING_IDX, warning);
    (ERROR_IDX, error); (FATAL_IDX, fatal) ].

(** The state a first [initLog(f)] leaves behind. *)
Definition fresh_start (f : FILE) (w : World) : World :=
  mkWorld
    (<[FATAL_IDX := Some fn_defaultFatalHandler]>
      (<[ERROR_IDX := Some fn_defaultErrorHandler]>
        (<[WARNING_IDX := Some fn_defaultWarningHandler]>
          (<[INFO_IDX := Some fn_defaultInfoHandler]>
            (<[VERBOSE_IDX := None]> (logHandlers w))))))
    (Some f) 1 (exit_fns w ++ [fn_closeLog]) (clock w) (trace w).

(** The events a computation leaves in the trace. *)
Definition events {A : Type} (r : Result (A * World)) : Result (list Event) :=
  match r with
  | Ok (_, w) => Ok (trace w)
  | UB f => UB f
  end.

(** The default handlers with the label each one prints. *)
Definition default_handlers : list (Handler * string) :=
  [ (fn_defaultVerboseHandler, "VERBOSE"); (fn_defaultInfoHandler, "INFO");
    (fn_defaultWarningHandler, "WARNING"); (fn_defaultErrorHandler, "ERROR");
    (fn_defaultFatalHandler, "FATAL") ].

(** The first [MAX_CHARS_IN_MSG] characters of a message. *)
Definition truncated (msg : string) : string :=
  string_of_list_ascii (take MAX_CHARS_IN_MSG (bytes msg)).

(** The line [logFormat] builds from its three fields. *)
Definition log_line (dateText labelText msgText : string) : string :=
  dateText +:+ TABS +:+ pad_right MAX_CHARS_IN_LOG_CAT labelText
  +:+ TABS +:+ msgText.

(** The date text [logFormat] reads back for a given answer of the clock. *)
Definition date_read (clock : option string) (dateText : string) : Prop :=
  bindR (logFormat_dateField clock) read_cstr = Ok dateText.

(** The answer of the clock is a C string, when there is one. *)
Definition clock_ok (clock : option string) : Prop :=
  match clock with
  | Some text => cstring text
  | None => True
  end.

(** The date a line starts with: the text of the clock when it fits the
    date array with its terminator, nothing when it does not or when the
    clock fails. *)
Definition date_text (clock : option string) : string :=
  match clock with
  | Some text =>
      if (String.length text <? MAX_CHARS_IN_DATE)%nat then text
      else EmptyString
  | None => EmptyString
  end.

(** The states a program can be in: those the operations of the interface
    lead to from the state at program start. *)
Definition reachable (w : World) : Prop :=
  exists ops clock, run_all ops (initial_world clock) = Ok w.

(** Either nothing has happened yet, or the logger is initialized: then
    the sink is set and [closeLog] is registered once. *)
Definition lifecycle (w : World) : Prop :=
  wf w
  /\ ((initialized w = 0 /\ logOutput w = None /\ exit_fns w = [])
      \/ (initialized w = 1 /\ (exists f, logOutput w = Some f)
          /\ exit_fns w = [fn_closeLog])).

(** ** Sample inputs *)

Definition sample_clock : option string := Some "Mon Nov  2 06:12:00 2026".
Definition sample_date : string := "Mon Nov  2 06:12:00 2026".
Definition sample_stream : FILE := 1%nat.

(** The state [initLog(sample_stream)] leaves behind. *)
Definition started_world : World :=
  mkWorld [None; Some fn_defaultInfoHandler; Some fn_defaultWarningHandler;
           Some fn_defaultErrorHandler; Some fn_defaultFatalHandler]
          (Some sample_stream) 1 [fn_closeLog] sample_clock [].

(** Sixty letters, and a message of sixty-one built on them. *)
Definition sixty : string := string_of_list_ascii (replicate 60 "a"%char).
Definition sixty_one : string := sixty +:+ "a".

(** Sixty-two characters that end in a full stop. *)
Definition sixty_two_and_stop : string := sixty +:+ "b.".

(** A clock whose text does not fit the date array. *)
Definition long_clock : option string :=
  Some "Thursday 02 November 2026 06:12:00 AM".


Definition LINE_END : string := String LF EmptyString.

(** The text before the message in a line of category [label]. *)
Definition line_prefix (dateText label : string) : string :=
  dateText +:+ TABS +:+ pad_right MAX_CHARS_IN_LOG_CAT (label +:+ ":") +:+ TABS.

(** * Properties *)

(** ** Strings and arrays *)

Lemma length_bytes (s : string) : length (bytes s) = String.length s.
Proof. induction s as [|c s IH]; simpl; [done | by rewrite IH]. Qed.

Lemma bytes_append (s t : string) : bytes (s +:+ t) = bytes s ++ bytes t.
Proof. induction s as [|c s IH]; simpl; [done | by rewrite IH]. Qed.

Lemma length_append (s t : string) :
  String.length (s +:+ t) = (String.length s + String.length t)%nat.
Proof. induction s as [|c s IH]; simpl; [done | by rewrite IH]. Qed.

Lemma length_string_of_list_ascii (l : list ascii) :
  String.length (string_of_list_ascii l) = length l.
Proof. induction l as [|c l IH]; simpl; [done | by rewrite IH]. Qed.

Lemma cstring_append (s t : string) : cstring s -> cstring t -> cstring (s +:+ t).
Proof.
  unfold cstring. rewrite bytes_append, forallb_app.
  intros -> ->. done.
Qed.

Lemma read_cstr_bytes (s : string) (rest : list ascii) :
  cstring s -> read_cstr (bytes s ++ NUL :: rest) = Ok s.
Proof.
  unfold cstring. induction s as [|c s IH]; simpl; [done |].
  intros [Hc Hs]%andb_true_iff.
  apply negb_true_iff in Hc. rewrite Hc. by rewrite IH.
Qed.

(** An array that holds a NUL is read without overrun, and the text read
    is no longer than what precedes that NUL. *)
Lemma read_cstr_terminated (l rest : list ascii) :
  exists s, read_cstr (l ++ NUL :: rest) = Ok s /\ (String.length s <= length l)%nat.
Proof.
  induction l as [|c l [s [IH Hlen]]]; simpl.
  - by exists EmptyString.
  - destruct (Ascii.eqb c NUL).
    + exists EmptyString. split; [done | simpl; lia].
    + rewrite IH. exists (String c s). split; [done | simpl; lia].
Qed.

Lemma replicate_snoc2 {A : Type} (k : nat) (x : A) :
  replicate k x ++ [x; x] = x :: x :: replicate k x.
Proof. induction k as [|k IH]; simpl; [done | by rewrite IH]. Qed.

Lemma to_int_small (z : Z) : 0 <= z < 2 ^ 31 -> to_int z = z.
Proof. intros Hz. unfold to_int. rewrite Z.mod_small; lia. Qed.

Lemma pad_right_length (w : nat) (s : string) :
  (String.length s <= w)%nat -> String.length (pad_right w s) = w.
Proof.
  intros Hs. unfold pad_right.
  rewrite length_append, length_string_of_list_ascii, length_replicate. lia.
Qed.

(** ** strcmp *)

Lemma string_compare_refl (s : string) : String.compare s s = Eq.
Proof.
  induction s as [|c s IH]; simpl; [done |].
  unfold Ascii.compare. by rewrite N.compare_refl.
Qed.

Lemma strcmp_eq (s1 s2 : string) : strcmp s1 s2 = 0 <-> s1 = s2.
Proof.
  unfold strcmp. split.
  - intros H. apply String.compare_eq_iff.
    destruct (String.compare s1 s2); [done | lia | lia].
  - intros ->. by rewrite string_compare_refl.
Qed.

Lemma truthy_strcmp (s1 s2 : string) :
  truthy (strcmp s1 s2) = negb (bool_decide (s1 = s2)).
Proof.
  unfold truthy. f_equal.
  destruct (decide (s1 = s2)) as [Heq|Hne].
  - rewrite bool_decide_eq_true_2 by done.
    apply Z.eqb_eq. by apply strcmp_eq.
  - rewrite bool_decide_eq_false_2 by done.
    apply Z.eqb_neq. by rewrite strcmp_eq.
Qed.

(** ** The three fields of logFormat *)

Lemma dateField_read (clock : option string) :
  exists dateText,
    bindR (logFormat_dateField clock) read_cstr = Ok dateText
    /\ (String.length dateText <= MAX_CHARS_IN_DATE)%nat.
Proof.
  destruct clock as [text|]; simpl.
  - unfold strftime.
    replace (MAX_CHARS_IN_DATE <=? length (char_array sizeof_DateStr ""))%nat
      with true by reflexivity.
    destruct (Nat.ltb_spec (String.length text) MAX_CHARS_IN_DATE) as [Hfit|Hbig];
      simpl.
    + destruct (read_cstr_terminated (bytes text)
                  (drop (String.length text + 1) (char_array sizeof_DateStr "")))
        as [d [Hd Hlen]].
      exists d. split; [done |]. rewrite length_bytes in Hlen. lia.
    + exists EmptyString. split; [reflexivity | simpl; lia].
  - exists EmptyString. split; [reflexivity | simpl; lia].
Qed.

(** The date field reads back as the text of the clock when that text
    fits, and as the empty string otherwise. *)
Lemma dateField_text (clock : option string) :
  clock_ok clock ->
  bindR (logFormat_dateField clock) read_cstr = Ok (date_text clock).
Proof.
  destruct clock as [text|]; simpl; [| reflexivity].
  intros Hc. unfold strftime.
  replace (MAX_CHARS_IN_DATE <=? length (char_array sizeof_DateStr ""))%nat
    with true by reflexivity.
  destruct (String.length text <? MAX_CHARS_IN_DATE)%nat; simpl.
  - by apply read_cstr_bytes.
  - reflexivity.
Qed.

Lemma date_read_text (clock : option string) (dateText : string) :
  clock_ok clock -> date_read clock dateText -> dateText = date_text clock.
Proof.
  intros Hc Hread. unfold date_read in Hread.
  rewrite dateField_text in Hread by done. by injection Hread.
Qed.

Lemma date_text_length (clock : option string) :
  (String.length (date_text clock) < MAX_CHARS_IN_DATE)%nat.
Proof.
  destruct clock as [text|]; simpl.
  - destruct (Nat.ltb_spec (String.length text) MAX_CHARS_IN_DATE);
      [done | unfold MAX_CHARS_IN_DATE; simpl; lia].
  - unfold MAX_CHARS_IN_DATE. simpl. lia.
Qed.

Lemma catField_read (cat : string) :
  cstring cat -> (String.length cat < MAX_CHARS_IN_LOG_CAT)%nat ->
  bindR (logFormat_catField (Some cat)) read_cstr = Ok (cat +:+ ":").
Proof.
  intros Hc Hlen. unfold logFormat_catField, sprintf.
  assert (Hfit : (String.length (cat +:+ ":") + 1
                  <=? length (char_array sizeof_LogCategory ""))%nat = true).
  { apply Nat.leb_le. rewrite length_append. simpl.
    unfold MAX_CHARS_IN_LOG_CAT in Hlen. lia. }
  rewrite Hfit. simpl bindR.
  apply read_cstr_bytes. by apply cstring_append.
Qed.

Lemma catField_read_null :
  bindR (logFormat_catField None) read_cstr = Ok EmptyString.
Proof. reflexivity. Qed.

(** Closes a goal [true = (lo <=? i) && (i <? hi)] by arithmetic. *)
Ltac in_bounds :=
  symmetry; apply andb_true_iff;
  rewrite ?Z.leb_le, ?Z.ltb_lt, ?length_app, ?length_bytes;
  cbn [length]; rewrite ?length_replicate; lia.

Lemma store_middle (l : list ascii) (x : ascii) (rest a : list ascii)
    (c : ascii) (i : Z) :
  a = l ++ x :: rest -> i = Z.of_nat (length l) ->
  store a i c = Ok (l ++ c :: rest).
Proof.
  intros -> ->. unfold store.
  replace ((0 <=? Z.of_nat (length l))
           && (Z.of_nat (length l) <? Z.of_nat (length (l ++ x :: rest))))
    with true by in_bounds.
  rewrite Nat2Z.id, insert_app_r_alt, Nat.sub_diag by lia. done.
Qed.

Lemma load_last (msg : string) (c : ascii) :
  last (bytes msg) = Some c ->
  load msg (Z.of_nat (String.length msg) - 1) = Ok c.
Proof.
  intros Hlast.
  assert (Hn : (1 <= String.length msg)%nat).
  { destruct msg; simpl in *; [discriminate | lia]. }
  unfold load.
  replace ((0 <=? Z.of_nat (String.length msg) - 1)
           && (Z.of_nat (String.length msg) - 1 <=? Z.of_nat (String.length msg)))
    with true by in_bounds.
  rewrite last_lookup, length_bytes in Hlast.
  replace (Z.to_nat (Z.of_nat (String.length msg) - 1))
    with (pred (String.length msg)) by lia.
  by rewrite Hlast.
Qed.

Lemma strncpy_msgField (msg : string) :
  (String.length msg <= MAX_CHARS_IN_MSG)%nat ->
  strncpy (char_array sizeof_MsgStr "(null)") msg MAX_CHARS_IN_MSG
  = Ok (bytes msg ++ NUL :: NUL
          :: replicate (MAX_CHARS_IN_MSG - String.length msg) NUL).
Proof.
  intros Hlen. unfold strncpy.
  replace (MAX_CHARS_IN_MSG <=? length (char_array sizeof_MsgStr "(null)"))%nat
    with true by reflexivity.
  replace (drop MAX_CHARS_IN_MSG (char_array sizeof_MsgStr "(null)"))
    with [NUL; NUL] by reflexivity.
  rewrite take_app_ge by (rewrite length_bytes; lia).
  rewrite take_replicate, length_bytes, <- (assoc_L (++)), replicate_snoc2.
  do 5 f_equal. lia.
Qed.

Lemma msgField_read (msg : string) (c : ascii) :
  cstring msg -> last (bytes msg) = Some c ->
  (String.length msg <= MAX_CHARS_IN_MSG)%nat ->
  bindR (logFormat_msgField (Some msg) (to_int (Z.of_nat (String.length msg))))
        read_cstr
  = Ok (if is_terminal c then msg else msg +:+ ".").
Proof.
  intros Hc Hlast Hlen.
  assert (Hlen' : (String.length msg <= 60)%nat) by exact Hlen.
  rewrite to_int_small by lia.
  unfold logFormat_msgField.
  rewrite strncpy_msgField by done. simpl bindR.
  rewrite (load_last _ c) by done. simpl bindR.
  destruct (is_terminal c); simpl negb; cbv iota.
  - simpl bindR. by apply read_cstr_bytes.
  - rewrite (store_middle (bytes msg) NUL
               (NUL :: replicate (MAX_CHARS_IN_MSG - String.length msg) NUL))
      by (by rewrite ?length_bytes).
    simpl bindR.
    rewrite (store_middle (bytes (msg +:+ ".")) NUL
               (replicate (MAX_CHARS_IN_MSG - String.length msg) NUL)).
    + simpl bindR. apply read_cstr_bytes. by apply cstring_append.
    + by rewrite bytes_append, <- (assoc_L (++)).
    + rewrite length_bytes, length_append. simpl. lia.
Qed.

Lemma bindR_Ok {A B : Type} (a : A) (k : A -> Result B) :
  bindR (Ok a) k = k a.
Proof. reflexivity. Qed.

Lemma bindR_Ok_inv {A B : Type} (r : Result A) (k : A -> Result B) (b : B) :
  bindR r k = Ok b -> exists a, r = Ok a /\ k a = Ok b.
Proof. destruct r as [a|f]; simpl; [eauto | discriminate]. Qed.

(** ** logFormat on the inputs it is written for *)

Lemma logFormat_fits (clock : option string) (capacity : nat)
    (cat : option string) (msg : string) (c : ascii) :
  label_fits cat -> msg_fits msg c ->
  (sizeof_LogEntryStr <= capacity)%nat ->
  exists dateText,
    bindR (logFormat_dateField clock) read_cstr = Ok dateText
    /\ logFormat clock (Some capacity) cat (Some msg)
       = Ok (Some (dateText +:+ TABS
                   +:+ pad_right MAX_CHARS_IN_LOG_CAT (label_text cat)
                   +:+ TABS +:+ punctuated msg c)).
Proof.
  intros Hcat (Hmsg & Hlast & Hlen) Hcap.
  destruct (dateField_read clock) as [dateText [Hdate Hdlen]].
  exists dateText. split; [done |].
  assert (Hlabel : bindR (logFormat_catField cat) read_cstr = Ok (label_text cat)
                   /\ (String.length (label_text cat) <= MAX_CHARS_IN_LOG_CAT)%nat).
  { destruct cat as [cat|]; simpl in Hcat |- *.
    - destruct Hcat as [Hc Hl]. split; [by apply catField_read |].
      rewrite length_append. simpl. lia.
    - split; [apply catField_read_null | lia]. }
  destruct Hlabel as [Hlabel Hllen].
  pose proof (msgField_read msg c Hmsg Hlast Hlen) as Hfield.
  apply bindR_Ok_inv in Hdate as [dateField [Hd1 Hd2]].
  apply bindR_Ok_inv in Hlabel as [catField [Hc1 Hc2]].
  apply bindR_Ok_inv in Hfield as [msgField [Hm1 Hm2]].
  fold (punctuated msg c) in Hm2.
  unfold logFormat, strlen.
  rewrite bindR_Ok, Hc1, bindR_Ok, Hm1, bindR_Ok, Hd1, bindR_Ok, Hd2,
    bindR_Ok, Hc2, bindR_Ok, Hm2, bindR_Ok.
  match goal with
  | |- (if ?b then _ else _) = _ => replace b with true; [done |]
  end.
  symmetry. apply Nat.leb_le.
  rewrite !length_append, pad_right_length by done.
  assert (String.length (punctuated msg c) <= S (String.length msg))%nat.
  { unfold punctuated. destruct (is_terminal c); [lia |].
    rewrite length_append. simpl. lia. }
  unfold sizeof_LogEntryStr, MAX_CHARS_IN_FINAL_MSG in Hcap. simpl TABS.
  simpl String.length. lia.
Qed.

(** ** Handlers and dispatch *)

Ltac unfold_M :=
  unfold bind, gets, modify, ret, lift in *.

Ltac unfold_handlers :=
  unfold call, defaultVerboseHandler, defaultInfoHandler,
    defaultWarningHandler, defaultErrorHandler, defaultFatalHandler,
    logFormat_local, fprintf_line in *.

Lemma log_events_nil (w : World) : log_events [] w = w.
Proof. destruct w. unfold log_events. simpl. by rewrite app_nil_r. Qed.

(** A handler only adds to the trace. *)
Lemma call_frame (h : Handler) (cond : Z) (msg : option string)
    (w w' : World) (u : unit) :
  call h cond msg w = Ok (u, w') -> exists evs, w' = log_events evs w.
Proof.
  destruct h; unfold_handlers; unfold_M;
    try (intros [= <-]; by eexists [_]);
    (destruct (truthy cond), (logOutput w) as [out|]; simpl;
     [ | intros [= <-]; exists []; by rewrite log_events_nil ..]);
    (match goal with
     | |- context [logFormat ?c ?d ?l ?m] =>
         destruct (logFormat c d l m) as [[line|]|f]; simpl
     end; [intros [= <-]; by eexists [_] | discriminate | discriminate ]).
Qed.

Lemma dispatch_frame (index : nat) (cond : Z) (msg : option string)
    (w w' : World) (u : unit) :
  dispatch index cond msg w = Ok (u, w') -> exists evs, w' = log_events evs w.
Proof.
  unfold dispatch, handler_at. unfold_M.
  destruct (default None (logHandlers w !! index)) as [h|].
  - apply call_frame.
  - intros [= <-]. exists []. by rewrite log_events_nil.
Qed.

(** An empty slot: nothing is called. *)
Lemma dispatch_empty (index : nat) (cond : Z) (msg : option string) (w : World) :
  default None (logHandlers w !! index) = None ->
  dispatch index cond msg w = Ok (tt, w).
Proof. intros H. unfold dispatch, handler_at. unfold_M. by rewrite H. Qed.

Lemma dispatch_call (index : nat) (h : Handler) (cond : Z)
    (msg : option string) (w : World) :
  default None (logHandlers w !! index) = Some h ->
  dispatch index cond msg w = call h cond msg w.
Proof. intros H. unfold dispatch, handler_at. unfold_M. by rewrite H. Qed.

Lemma default_labels_fit (label : string) :
  label ∈ ["VERBOSE"; "INFO"; "WARNING"; "ERROR"; "FATAL"] ->
  label_fits (Some label).
Proof.
  intros H. repeat (apply elem_of_cons in H as [->|H]);
    [split; [reflexivity | unfold MAX_CHARS_IN_LOG_CAT; simpl; lia] .. |].
  by apply elem_of_nil in H.
Qed.

(** On a message that fits, every handler returns. *)
Lemma call_returns (h : Handler) (cond : Z) (msg : string) (c : ascii)
    (w : World) :
  msg_fits msg c -> exists evs, call h cond (Some msg) w = Ok (tt, log_events evs w).
Proof.
  intros Hmsg.
  destruct h; unfold_handlers; unfold_M;
    try (by eexists [_]);
    (destruct (truthy cond), (logOutput w) as [out|]; simpl;
     [ | exists []; by rewrite log_events_nil ..]);
    (match goal with
     | |- context [logFormat ?k ?d (Some ?l) ?m] =>
         destruct (logFormat_fits k sizeof_LogEntryStr (Some l) msg c)
           as [dateText [_ ->]];
         [apply default_labels_fit; repeat constructor | done | done |]
     end; by eexists [_]).
Qed.

Lemma dispatch_returns (index : nat) (cond : Z) (msg : string) (c : ascii)
    (w : World) :
  msg_fits msg c ->
  exists evs, dispatch index cond (Some msg) w = Ok (tt, log_events evs w).
Proof.
  intros Hmsg. unfold dispatch, handler_at. unfold_M.
  destruct (default None (logHandlers w !! index)) as [h|].
  - by apply (call_returns h cond msg c).
  - exists []. by rewrite log_events_nil.
Qed.


(** ** The table of names *)

Lemma names_category_cases (cat : string) (index : nat) :
  names_category cat index ->
  (index = VERBOSE_IDX /\ (cat = "VERBOSE" \/ cat = "verbose"))
  \/ (index = INFO_IDX /\ (cat = "INFO" \/ cat = "info"))
  \/ (index = WARNING_IDX /\ (cat = "WARNING" \/ cat = "warning"))
  \/ (index = ERROR_IDX /\ (cat = "ERROR" \/ cat = "error"))
  \/ (index = FATAL_IDX /\ (cat = "FATAL" \/ cat = "fatal")).
Proof.
  intros [Hlt Hcat]. unfold NUM_LOG_CATS in Hlt.
  do 5 (destruct index as [|index]; [simpl in Hcat; tauto |]). lia.
Qed.

(** No name belongs to two categories. *)
Lemma names_category_inj (cat : string) (i j : nat) :
  names_category cat i -> names_category cat j -> i = j.
Proof.
  intros Hi Hj.
  apply names_category_cases in Hi. apply names_category_cases in Hj.
  destruct Hi as [[-> Hi]|[[-> Hi]|[[-> Hi]|[[-> Hi]|[-> Hi]]]]];
    destruct Hj as [[-> Hj]|[[-> Hj]|[[-> Hj]|[[-> Hj]|[-> Hj]]]]];
    try reflexivity;
    destruct Hi as [-> | ->]; destruct Hj as [Hj|Hj]; discriminate Hj.
Qed.

(** The test of the loop in [setHandler]. *)
Lemma setHandler_test (cat : string) (index : nat) :
  (index < NUM_LOG_CATS)%nat ->
  negb (truthy (strcmp cat (valid_cat index UPPER_INDEX)))
  || negb (truthy (strcmp cat (valid_cat index LOWER_INDEX)))
  = bool_decide (names_category cat index).
Proof.
  intros Hlt. rewrite !truthy_strcmp, !negb_involutive.
  unfold names_category.
  destruct (decide (cat = valid_cat index UPPER_INDEX)) as [Hu|Hu];
    destruct (decide (cat = valid_cat index LOWER_INDEX)) as [Hl|Hl];
    rewrite ?(bool_decide_eq_true_2 _ Hu), ?(bool_decide_eq_false_2 _ Hu),
      ?(bool_decide_eq_true_2 _ Hl), ?(bool_decide_eq_false_2 _ Hl);
    simpl; symmetry;
    first [ apply bool_decide_eq_true_2; tauto
          | apply bool_decide_eq_false_2; tauto ].
Qed.

(** The test of the loop in [logger] holds at the first row whatever the
    name is: no string equals both "VERBOSE" and "verbose". *)
Lemma logger_test_first (cat : string) :
  truthy (strcmp cat (valid_cat 0 UPPER_INDEX))
  || truthy (strcmp cat (valid_cat 0 LOWER_INDEX)) = true.
Proof.
  rewrite !truthy_strcmp. simpl valid_cat.
  destruct (decide (cat = "VERBOSE")) as [->|Hne].
  - by rewrite orb_true_r.
  - by rewrite (bool_decide_eq_false_2 _ Hne).
Qed.

(** ** The loops *)

Lemma setHandler_for_valid (n index : nat) (cat : string)
    (handler : option Handler) (w : World) :
  setHandler_for n index 1 cat handler w = Ok (1, w).
Proof. destruct n; simpl; [done |]. by rewrite andb_false_r. Qed.

Lemma logger_for_valid (n index : nat) (cat : string) (msg : option string)
    (w : World) :
  logger_for n index 1 cat msg w = Ok (1, w).
Proof. destruct n; simpl; [done |]. by rewrite andb_false_r. Qed.

Lemma setHandler_for_miss (n index : nat) (cat : string)
    (handler : option Handler) (w : World) :
  (forall j, (index <= j < index + n)%nat -> ~ names_category cat j) ->
  setHandler_for n index 0 cat handler w = Ok (0, w).
Proof.
  revert index. induction n as [|n IH]; intros index Hmiss; simpl; [done |].
  destruct (Nat.ltb_spec index NUM_LOG_CATS) as [Hlt|Hge]; simpl;
    [|reflexivity].
  rewrite setHandler_test by done.
  rewrite bool_decide_eq_false_2 by (apply Hmiss; lia).
  unfold_M. apply IH. intros j Hj. apply Hmiss. lia.
Qed.

Lemma setHandler_for_hit (n index i : nat) (cat : string)
    (handler : option Handler) (w : World) :
  (index <= i < index + n)%nat -> names_category cat i ->
  setHandler_for n index 0 cat handler w
  = Ok (1, set_logHandlers (<[i := handler]> (logHandlers w)) w).
Proof.
  revert index. induction n as [|n IH]; intros index Hi Hcat; simpl; [lia |].
  assert (Hlt : (index < NUM_LOG_CATS)%nat) by (destruct Hcat; lia).
  destruct (Nat.ltb_spec index NUM_LOG_CATS) as [_|Hge]; [simpl | lia].
  rewrite setHandler_test by done.
  destruct (decide (index = i)) as [->|Hne].
  - rewrite bool_decide_eq_true_2 by done.
    unfold_M. apply setHandler_for_valid.
  - rewrite bool_decide_eq_false_2.
    + unfold_M. apply IH; [lia | done].
    + intros Hidx. apply Hne. by apply (names_category_inj cat).
Qed.

(** The loop of [logger] stops at the first row. *)
Lemma logger_for_first (n : nat) (cat : string) (msg : option string)
    (w : World) :
  logger_for (S n) 0 0 cat msg w
  = (dispatch VERBOSE_IDX 1 msg ;; ret 1) w.
Proof.
  simpl logger_for. rewrite logger_test_first. simpl.
  unfold VERBOSE_IDX, bind.
  destruct (dispatch 0 1 msg w) as [[[] w']|f]; simpl; [|done].
  unfold ret. apply logger_for_valid.
Qed.

(** One turn of each loop. *)
Lemma setHandler_for_S (n index : nat) (catValid : Z) (cat : string)
    (handler : option Handler) :
  setHandler_for (S n) index catValid cat handler
  = if (index <? NUM_LOG_CATS)%nat && negb (truthy catValid) then
      catValid' <-
        (if negb (truthy (strcmp cat (valid_cat index UPPER_INDEX)))
            || negb (truthy (strcmp cat (valid_cat index LOWER_INDEX)))
         then
           modify (fun w =>
             set_logHandlers (<[index := handler]> (logHandlers w)) w) ;;
           ret 1
         else ret catValid) ;;
      setHandler_for n (S index) catValid' cat handler
    else ret catValid.
Proof. reflexivity. Qed.

Lemma logger_for_S (n index : nat) (catValid : Z) (cat : string)
    (msg : option string) :
  logger_for (S n) index catValid cat msg
  = if (index <? NUM_LOG_CATS)%nat && negb (truthy catValid) then
      catValid' <-
        (if truthy (strcmp cat (valid_cat index UPPER_INDEX))
            || truthy (strcmp cat (valid_cat index LOWER_INDEX))
         then dispatch index 1 msg ;; ret 1
         else ret catValid) ;;
      logger_for n (S index) catValid' cat msg
    else ret catValid.
Proof. reflexivity. Qed.

(** [NUM_LOG_CATS] unfoldings are enough: from there on, one more changes
    nothing, the guard [index < NUM_LOG_CATS] having failed. *)
Lemma setHandler_for_fuel (n index : nat) (catValid : Z) (cat : string)
    (handler : option Handler) (w : World) :
  (NUM_LOG_CATS <= index + n)%nat ->
  setHandler_for (S n) index catValid cat handler w
  = setHandler_for n index catValid cat handler w.
Proof.
  revert index catValid w.
  induction n as [|n IH]; intros index catValid w Hfuel.
  - simpl. destruct (Nat.ltb_spec index NUM_LOG_CATS); [lia | done].
  - rewrite (setHandler_for_S (S n)), (setHandler_for_S n).
    destruct ((index <? NUM_LOG_CATS)%nat && negb (truthy catValid)); [|done].
    unfold bind at 1 3.
    match goal with
    | |- match ?m w with _ => _ end = _ => destruct (m w) as [[cv w']|f]
    end; [|done].
    apply IH. lia.
Qed.

Lemma logger_for_fuel (n index : nat) (catValid : Z) (cat : string)
    (msg : option string) (w : World) :
  (NUM_LOG_CATS <= index + n)%nat ->
  logger_for (S n) index catValid cat msg w
  = logger_for n index catValid cat msg w.
Proof.
  revert index catValid w.
  induction n as [|n IH]; intros index catValid w Hfuel.
  - simpl. destruct (Nat.ltb_spec index NUM_LOG_CATS); [lia | done].
  - rewrite (logger_for_S (S n)), (logger_for_S n).
    destruct ((index <? NUM_LOG_CATS)%nat && negb (truthy catValid)); [|done].
    unfold bind at 1 3.
    match goal with
    | |- match ?m w with _ => _ end = _ => destruct (m w) as [[cv w']|f]
    end; [|done].
    apply IH. lia.
Qed.

(** ** setHandler *)

Lemma setHandler_hit (cat : string) (i : nat) (handler : option Handler)
    (w : World) :
  truthy (initialized w) = true -> names_category cat i ->
  setHandler (Some cat) handler w
  = Ok (1, set_logHandlers (<[i := handler]> (logHandlers w)) w).
Proof.
  intros Hinit Hcat. unfold setHandler. unfold_M. rewrite Hinit.
  rewrite (setHandler_for_hit _ _ i) by (destruct Hcat; done || lia).
  reflexivity.
Qed.

Lemma setHandler_miss (cat : string) (handler : option Handler) (w : World) :
  truthy (initialized w) = false \/ (forall i, ~ names_category cat i) ->
  setHandler (Some cat) handler w
  = (warning 1 (Some "Invalid category provided. Handler is not set.") ;;
     ret 0) w.
Proof.
  intros Hmiss. unfold setHandler. unfold_M.
  destruct (truthy (initialized w)) eqn:Hinit.
  - destruct Hmiss as [|Hmiss]; [done |].
    rewrite setHandler_for_miss by (intros j _; apply Hmiss). reflexivity.
  - reflexivity.
Qed.

(** The loop writes the table and nothing else. *)
Lemma setHandler_for_flag (n index : nat) (catValid : Z) (cat : string)
    (handler : option Handler) (w w' : World) (r : Z) :
  setHandler_for n index catValid cat handler w = Ok (r, w') ->
  initialized w' = initialized w /\ trace w' = trace w.
Proof.
  revert index catValid w.
  induction n as [|n IH]; intros index catValid w; simpl.
  - by intros [= _ <-].
  - destruct ((index <? NUM_LOG_CATS)%nat && negb (truthy catValid));
      [| by intros [= _ <-]].
    destruct (negb (truthy (strcmp cat (valid_cat index UPPER_INDEX)))
              || negb (truthy (strcmp cat (valid_cat index LOWER_INDEX))));
      unfold_M; intros H; apply IH in H; exact H.
Qed.

Lemma setHandler_flag (cat : option string) (handler : option Handler)
    (w w' : World) (r : Z) :
  setHandler cat handler w = Ok (r, w') -> initialized w' = initialized w.
Proof.
  unfold setHandler. unfold_M.
  set (loop := match cat with
               | Some cat =>
                   if truthy (initialized w)
                   then setHandler_for NUM_LOG_CATS 0 0 cat handler
                   else fun w => Ok (0, w)
               | None => fun w => Ok (0, w)
               end).
  assert (Hloop : forall r1 w1, loop w = Ok (r1, w1) ->
                                initialized w1 = initialized w).
  { subst loop. intros r1 w1.
    destruct cat as [cat|]; [destruct (truthy (initialized w)) |].
    - intros H. by apply setHandler_for_flag in H as [? _].
    - by intros [= _ <-].
    - by intros [= _ <-]. }
  destruct (loop w) as [[r1 w1]|f] eqn:Hrun; [|done].
  specialize (Hloop r1 w1 eq_refl).
  destruct (negb (truthy r1)).
  - unfold warning.
    destruct (dispatch WARNING_IDX 1
                (Some "Invalid category provided. Handler is not set.") w1)
      as [[u w2]|f] eqn:Hw; [|done].
    apply dispatch_frame in Hw as [evs ->]. by intros [= _ <-].
  - by intros [= _ <-].
Qed.

(** ** logger *)

Lemma logger_named (cat : string) (msg : option string) (w : World) :
  truthy (initialized w) = true ->
  logger (Some cat) msg w = dispatch VERBOSE_IDX 1 msg w.
Proof.
  intros Hinit. unfold logger. unfold bind at 1. unfold gets at 1.
  rewrite Hinit. unfold bind at 1. unfold NUM_LOG_CATS.
  rewrite logger_for_first. unfold bind, ret.
  by destruct (dispatch VERBOSE_IDX 1 msg w) as [[[] w']|f].
Qed.

Lemma logger_frame (cat msg : option string) (w w' : World) (u : unit) :
  logger cat msg w = Ok (u, w') -> exists evs, w' = log_events evs w.
Proof.
  destruct (truthy (initialized w)) eqn:Hinit.
  - destruct cat as [cat|].
    + rewrite logger_named by done. apply dispatch_frame.
    + unfold logger. unfold_M. rewrite Hinit. simpl. apply dispatch_frame.
  - unfold logger. unfold_M. rewrite Hinit.
    intros [= <-]. exists []. by rewrite log_events_nil.
Qed.

(** ** initLog *)

Lemma initLog_fresh (f : FILE) (w : World) :
  initialized w = 0 ->
  initLog (Some f) w = Ok (1, fresh_start f w).
Proof.
  intros Hinit. unfold initLog. unfold_M. rewrite Hinit.
  change (negb (is_null (Some f)) && negb (truthy 0)) with true.
  cbv beta iota.
  rewrite (setHandler_hit "VERBOSE" VERBOSE_IDX);
    [| reflexivity | split; [unfold NUM_LOG_CATS, VERBOSE_IDX; lia | by left]].
  rewrite (setHandler_hit "INFO" INFO_IDX);
    [| reflexivity | split; [unfold NUM_LOG_CATS, INFO_IDX; lia | by left]].
  rewrite (setHandler_hit "WARNING" WARNING_IDX);
    [| reflexivity | split; [unfold NUM_LOG_CATS, WARNING_IDX; lia | by left]].
  rewrite (setHandler_hit "ERROR" ERROR_IDX);
    [| reflexivity | split; [unfold NUM_LOG_CATS, ERROR_IDX; lia | by left]].
  rewrite (setHandler_hit "FATAL" FATAL_IDX);
    [| reflexivity | split; [unfold NUM_LOG_CATS, FATAL_IDX; lia | by left]].
  reflexivity.
Qed.

Lemma initLog_again (dest : option FILE) (w : World) :
  initialized w <> 0 -> initLog dest w = Ok (initialized w, w).
Proof.
  intros Hinit. unfold initLog. unfold_M.
  assert (truthy (initialized w) = true) as ->.
  { unfold truthy. apply negb_true_iff. by apply Z.eqb_neq. }
  by rewrite andb_false_r.
Qed.

Lemma initLog_null (w : World) : initLog None w = Ok (initialized w, w).
Proof. reflexivity. Qed.

(** ** Messages longer than the message array *)

Lemma store_outside (a : list ascii) (i : Z) (c : ascii) :
  i < 0 \/ Z.of_nat (length a) <= i -> store a i c = UB OutOfBounds.
Proof.
  intros Hout. unfold store.
  destruct (Z.leb_spec 0 i); destruct (Z.ltb_spec i (Z.of_nat (length a)));
    simpl; first [done | lia].
Qed.

Lemma store_length (a a' : list ascii) (i : Z) (c : ascii) :
  store a i c = Ok a' -> length a' = length a.
Proof.
  unfold store. destruct ((0 <=? i) && (i <? Z.of_nat (length a))); [|done].
  intros [= <-]. apply length_insert.
Qed.

(** A message of more than [MAX_CHARS_IN_MSG] characters that does not end
    in terminal punctuation: the two writes after the copy are made at the
    length of the whole message, and the second one at the latest falls
    outside the array. *)
Lemma msgField_overrun (msg : string) (c : ascii) :
  last (bytes msg) = Some c -> is_terminal c = false ->
  (MAX_CHARS_IN_MSG < String.length msg)%nat ->
  Z.of_nat (String.length msg) < 2 ^ 31 ->
  logFormat_msgField (Some msg) (to_int (Z.of_nat (String.length msg)))
  = UB OutOfBounds.
Proof.
  intros Hlast Hterm Hlong Hint.
  assert (Hlong' : (60 < String.length msg)%nat) by exact Hlong.
  rewrite to_int_small by lia.
  unfold logFormat_msgField, strncpy.
  replace (MAX_CHARS_IN_MSG <=? length (char_array sizeof_MsgStr "(null)"))%nat
    with true by reflexivity.
  rewrite bindR_Ok, (load_last _ c), bindR_Ok, Hterm by done.
  simpl negb. cbv iota.
  set (copied := take MAX_CHARS_IN_MSG (bytes msg ++ replicate MAX_CHARS_IN_MSG NUL)
                 ++ drop MAX_CHARS_IN_MSG (char_array sizeof_MsgStr "(null)")).
  assert (Hsize : length copied = 62%nat).
  { subst copied. rewrite length_app, length_take, length_app, length_bytes,
      length_replicate.
    replace (length (drop MAX_CHARS_IN_MSG (char_array sizeof_MsgStr "(null)")))
      with 2%nat by reflexivity.
    unfold MAX_CHARS_IN_MSG. lia. }
  destruct (store copied (Z.of_nat (String.length msg)) ".") as [stored|f]
    eqn:Hstore.
  - rewrite bindR_Ok. apply store_length in Hstore as Hsize'.
    apply store_outside. rewrite Hsize', Hsize. lia.
  - simpl. unfold store in Hstore.
    destruct ((0 <=? Z.of_nat (String.length msg))
              && (Z.of_nat (String.length msg) <? Z.of_nat (length copied)));
      by inversion Hstore.
Qed.

(** * The claims *)

(** C1 (the code departs from it).  For a valid category name [logger] is
    to call the handler of that category and of no other.  In the code the
    test of the loop is [strcmp(..) || strcmp(..)], true at the first row
    for every name ([logger_named]): after initialization
    [logger("INFO", "test")] calls nothing, since the VERBOSE slot is
    empty, where [info(1, "test")] prints the INFO line; with a handler in
    the VERBOSE slot it is that handler which receives the message. *)
Theorem logger_INFO_reaches_VERBOSE_slot :
  events ((initLog (Some sample_stream) ;;
           logger (Some "INFO") (Some "test")) (initial_world sample_clock))
  = Ok []
  /\ events ((initLog (Some sample_stream) ;;
              info 1 (Some "test")) (initial_world sample_clock))
     = Ok [Fprintf sample_stream
             (line_prefix sample_date "INFO" +:+ "test." +:+ LINE_END)]
  /\ events ((initLog (Some sample_stream) ;;
              setHandler (Some "VERBOSE") (Some (fn_custom 7)) ;;
              logger (Some "INFO") (Some "test")) (initial_world sample_clock))
     = Ok [CustomCall 7 1 (Some "test")].
Proof. repeat split; vm_compute; reflexivity. Qed.

(** C2 (the code departs from it).  For a name that is no category, such
    as "DEBUG", [logger] is to call no handler with the message and to
    emit one WARNING.  By the same test as in C1 the name passes as valid
    at the first row: no WARNING is emitted, and a handler in the VERBOSE
    slot receives the original message. *)
Theorem logger_DEBUG_emits_no_warning :
  events ((initLog (Some sample_stream) ;;
           logger (Some "DEBUG") (Some "lost")) (initial_world sample_clock))
  = Ok []
  /\ events ((initLog (Some sample_stream) ;;
              warning 1 (Some "Invalid category provided. Message is not logged."))
               (initial_world sample_clock))
     = Ok [Fprintf sample_stream
             (line_prefix sample_date "WARNING"
              +:+ "Invalid category provided. Message is not logged."
              +:+ LINE_END)]
  /\ events ((initLog (Some sample_stream) ;;
              setHandler (Some "VERBOSE") (Some fn_defaultVerboseHandler) ;;
              logger (Some "DEBUG") (Some "lost")) (initial_world sample_clock))
     = Ok [Fprintf sample_stream
             (line_prefix sample_date "VERBOSE" +:+ "lost." +:+ LINE_END)].
Proof. repeat split; vm_compute; reflexivity. Qed.

(** C3 (the code departs from it).  A message longer than
    [MAX_CHARS_IN_MSG] is to be truncated before the punctuation rule, with
    every write inside the message array.  The copy is bounded, but the
    rule then writes at the length of the untruncated message
    ([msgField_overrun]): for sixty-one letters the full stop goes to the
    last byte of the array and the terminator one byte past it. *)
Theorem logFormat_overruns_msgField (clock : option string)
    (dest : option nat) :
  String.length sixty_one = 61%nat
  /\ length (char_array sizeof_MsgStr "(null)") = 62%nat
  /\ logFormat_msgField (Some sixty_one) 61 = UB OutOfBounds
  /\ logFormat clock dest None (Some sixty_one) = UB OutOfBounds
  /\ info 1 (Some sixty_one) started_world = UB OutOfBounds.
Proof. repeat split; vm_compute; reflexivity. Qed.

(** C4 (the code departs from it).  A null message is to be rendered as
    "(null)".  The first statement of [logFormat] takes [strlen(msg)]
    before the null test is reached, so a null message is read through
    whatever the buffer and the label are; the default handlers pass their
    message on unchecked. *)
Theorem logFormat_null_message (clock : option string) (dest : option nat)
    (cat : option string) :
  logFormat clock dest cat None = UB NullDeref
  /\ info 1 None started_world = UB NullDeref.
Proof. split; reflexivity. Qed.

(** C5.  [initLog] returns the value of the flag after the call.  A first
    call with a stream records the stream, sets the flag and returns 1; a
    call on an initialized logger changes nothing and returns the flag,
    which is not zero; a call with a null stream changes nothing and
    returns the flag as it was. *)
Theorem initLog_reports_initialized (dest : option FILE) (w : World) :
  exists w',
    initLog dest w = Ok (initialized w', w')
    /\ (forall f, dest = Some f -> initialized w = 0 ->
          logOutput w' = Some f /\ initialized w' = 1)
    /\ (initialized w <> 0 -> w' = w)
    /\ (dest = None -> w' = w).
Proof.
  destruct (decide (initialized w = 0)) as [Hfresh|Hagain].
  - destruct dest as [f|].
    + exists (fresh_start f w). rewrite initLog_fresh by done.
      repeat split; done.
    + exists w. rewrite initLog_null. repeat split; done.
  - exists w. rewrite initLog_again by done. repeat split; done.
Qed.

Lemma initLog_reports_initialized_witness :
  exists w',
    initLog (Some sample_stream) (initial_world sample_clock)
    = Ok (initialized w', w')
    /\ logOutput w' = Some sample_stream /\ initialized w' = 1.
Proof.
  destruct (initLog_reports_initialized (Some sample_stream)
              (initial_world sample_clock)) as (w' & Hrun & Hfirst & _).
  exists w'. split; [exact Hrun |].
  apply (Hfirst sample_stream); reflexivity.
Defined.

Lemma warning_text_fits :
  msg_fits "Invalid category provided. Handler is not set." "."%char.
Proof.
  split; [reflexivity |]. split; [reflexivity |].
  unfold MAX_CHARS_IN_MSG. simpl. lia.
Qed.

(** C7.  Right after a successful initialization the VERBOSE slot is empty
    and the INFO, WARNING, ERROR and FATAL slots hold their default
    handlers. *)
Theorem initLog_installs_defaults (f : FILE) (w : World) :
  wf w -> initialized w = 0 ->
  exists w',
    initLog (Some f) w = Ok (1, w')
    /\ logHandlers w'
       = [None; Some fn_defaultInfoHandler; Some fn_defaultWarningHandler;
          Some fn_defaultErrorHandler; Some fn_defaultFatalHandler].
Proof.
  intros Hwf Hfresh. exists (fresh_start f w).
  split; [by apply initLog_fresh |].
  unfold wf, NUM_LOG_CATS in Hwf. simpl.
  destruct (logHandlers w) as [|s0 [|s1 [|s2 [|s3 [|s4 [|s5 l]]]]]];
    simpl in Hwf; try lia.
  reflexivity.
Qed.

Lemma initLog_installs_defaults_witness :
  exists w',
    initLog (Some sample_stream) (initial_world sample_clock) = Ok (1, w')
    /\ logHandlers w'
       = [None; Some fn_defaultInfoHandler; Some fn_defaultWarningHandler;
          Some fn_defaultErrorHandler; Some fn_defaultFatalHandler].
Proof.
  apply (initLog_installs_defaults sample_stream (initial_world sample_clock));
    reflexivity.
Defined.

(** ** The per-category functions *)

Lemma emitters_are_dispatch (index : nat) (emit : Z -> option string -> M unit) :
  (index, emit) ∈ emitters -> emit = dispatch index.
Proof.
  unfold emitters. intros H.
  repeat (apply elem_of_cons in H as [[= -> ->]|H]; [reflexivity |]).
  by apply elem_of_nil in H.
Qed.


(** ** The invariant of the table *)

Lemma initial_world_guarded (clock : option string) :
  table_guarded (initial_world clock).
Proof. intros _. simpl. by repeat constructor. Qed.

Lemma guarded_slot_empty (w : World) (index : nat) :
  table_guarded w -> initialized w = 0 ->
  default None (logHandlers w !! index) = None.
Proof.
  intros Hinv Hzero. specialize (Hinv Hzero).
  destruct (logHandlers w !! index) as [slot|] eqn:Hslot; [|done].
  simpl. by apply (proj1 (Forall_lookup _ _) Hinv index slot).
Qed.

Lemma guarded_dispatch (w : World) (index : nat) (cond : Z)
    (msg : option string) :
  table_guarded w -> initialized w = 0 ->
  dispatch index cond msg w = Ok (tt, w).
Proof. intros Hinv Hzero. by apply dispatch_empty, guarded_slot_empty. Qed.

Lemma table_guarded_log_events (evs : list Event) (w : World) :
  table_guarded w -> table_guarded (log_events evs w).
Proof. done. Qed.

Lemma setHandler_uninitialized (cat : option string)
    (handler : option Handler) (w : World) :
  table_guarded w -> initialized w = 0 ->
  setHandler cat handler w = Ok (0, w).
Proof.
  intros Hinv Hzero. unfold setHandler. unfold_M. rewrite Hzero.
  assert (Hloop : match cat with
                  | Some cat =>
                      if truthy 0
                      then setHandler_for NUM_LOG_CATS 0 0 cat handler
                      else fun w => Ok (0, w)
                  | None => fun w => Ok (0, w)
                  end w = Ok (0, w)) by by destruct cat.
  rewrite Hloop. simpl. unfold warning. by rewrite guarded_dispatch.
Qed.

Lemma operations_keep_guard (op : Operation) (w : World) :
  table_guarded w ->
  (forall w', run op w = Ok w' -> table_guarded w')
  /\ (initialized w = 0 ->
      exists w', run op w = Ok w' /\ trace w' = trace w).
Proof.
  intros Hinv.
  assert (Hemit : forall index cond msg,
            (forall w', discard (dispatch index cond msg) w = Ok w' ->
                        table_guarded w')
            /\ (initialized w = 0 ->
                exists w', discard (dispatch index cond msg) w = Ok w'
                           /\ trace w' = trace w)).
  { intros index cond msg. unfold discard. split.
    - intros w'.
      destruct (dispatch index cond msg w) as [[u w1]|f] eqn:Hrun; [|done].
      intros [= <-]. apply dispatch_frame in Hrun as [evs ->].
      by apply table_guarded_log_events.
    - intros Hzero. exists w. by rewrite guarded_dispatch. }
  destruct op as [dest|cat msg|cat handler|cond msg|cond msg|cond msg
                 |cond msg|cond msg];
    try apply Hemit; unfold run, discard.
  - (* initLog *)
    destruct (decide (initialized w = 0)) as [Hzero|Hset].
    + destruct dest as [f|].
      * rewrite initLog_fresh by done. split.
        -- intros w' [= <-]. intros Habs. discriminate Habs.
        -- intros _. by exists (fresh_start f w).
      * rewrite initLog_null. split.
        -- by intros w' [= <-].
        -- intros _. by exists w.
    + rewrite initLog_again by done. split; [by intros w' [= <-] | done].
  - (* logger *)
    split.
    + intros w'.
      destruct (logger cat msg w) as [[u w1]|f] eqn:Hrun; [|done].
      intros [= <-]. apply logger_frame in Hrun as [evs ->].
      by apply table_guarded_log_events.
    + intros Hzero. exists w. unfold logger. unfold_M. by rewrite Hzero.
  - (* setHandler *)
    split.
    + intros w'.
      destruct (setHandler cat handler w) as [[r w1]|f] eqn:Hrun; [|done].
      intros [= <-].
      destruct (decide (initialized w = 0)) as [Hzero|Hset].
      * rewrite setHandler_uninitialized in Hrun by done.
        by injection Hrun as _ <-.
      * apply setHandler_flag in Hrun. intros Habs. congruence.
    + intros Hzero. exists w. by rewrite setHandler_uninitialized.
Qed.

(** Hence the table is guarded in every state a program can reach. *)
Lemma reachable_guarded (ops : list Operation) (clock : option string)
    (w : World) :
  run_all ops (initial_world clock) = Ok w -> table_guarded w.
Proof.
  assert (Hgen : forall w0, table_guarded w0 ->
                            run_all ops w0 = Ok w -> table_guarded w).
  { induction ops as [|op ops IH]; intros w0 Hinv; simpl.
    - by intros [= <-].
    - destruct (run op w0) as [w1|f] eqn:Hrun; [|done].
      apply IH. by apply (proj1 (operations_keep_guard op w0 Hinv)). }
  apply Hgen, initial_world_guarded.
Qed.

(** C10.  Every operation of the interface keeps the invariant that an
    uninitialized logger has an empty table; and on an uninitialized
    logger every operation returns without adding to the trace, the
    per-category functions included, which do not look at the flag. *)
Theorem table_guarded_invariant (op : Operation) (w : World) :
  table_guarded w ->
  (forall w', run op w = Ok w' -> table_guarded w')
  /\ (initialized w = 0 ->
      exists w', run op w = Ok w' /\ trace w' = trace w).
Proof. apply operations_keep_guard. Qed.

Lemma table_guarded_invariant_witness :
  (forall w', run (op_setHandler (Some "INFO") (Some fn_defaultInfoHandler))
                (initial_world sample_clock) = Ok w' -> table_guarded w')
  /\ (initialized (initial_world sample_clock) = 0 ->
      exists w', run (op_setHandler (Some "INFO") (Some fn_defaultInfoHandler))
                   (initial_world sample_clock) = Ok w'
                 /\ trace w' = trace (initial_world sample_clock)).
Proof.
  apply (table_guarded_invariant
           (op_setHandler (Some "INFO") (Some fn_defaultInfoHandler))
           (initial_world sample_clock)).
  intros _. simpl. repeat constructor.
Defined.

(** * Further properties *)

(** ** logFormat, field by field *)

Lemma catField_fits (cat : option string) :
  label_fits cat ->
  exists catField,
    logFormat_catField cat = Ok catField
    /\ read_cstr catField = Ok (label_text cat)
    /\ (String.length (label_text cat) <= MAX_CHARS_IN_LOG_CAT)%nat.
Proof.
  intros Hcat.
  assert (Hread : bindR (logFormat_catField cat) read_cstr = Ok (label_text cat)
                  /\ (String.length (label_text cat) <= MAX_CHARS_IN_LOG_CAT)%nat).
  { destruct cat as [cat|]; simpl in Hcat |- *.
    - destruct Hcat as [Hc Hl]. split; [by apply catField_read |].
      rewrite length_append. simpl. lia.
    - split; [apply catField_read_null | lia]. }
  destruct Hread as [Hread Hlen].
  apply bindR_Ok_inv in Hread as [catField [H1 H2]]. by exists catField.
Qed.

(** The category array overflows in one way only. *)
Lemma catField_fault (cat : option string) (f : Fault) :
  logFormat_catField cat = UB f -> f = OutOfBounds.
Proof.
  destruct cat as [cat|]; [|discriminate].
  unfold logFormat_catField, sprintf.
  destruct (String.length (cat +:+ ":") + 1
            <=? length (char_array sizeof_LogCategory ""))%nat;
    [discriminate | by intros [= <-]].
Qed.

Lemma log_line_length (dateText labelText msgText : string) :
  (String.length labelText <= MAX_CHARS_IN_LOG_CAT)%nat ->
  String.length (log_line dateText labelText msgText)
  = (String.length dateText + 12 + String.length msgText)%nat.
Proof.
  intros Hlabel. unfold log_line.
  rewrite !length_append, pad_right_length by done.
  unfold MAX_CHARS_IN_LOG_CAT. simpl. lia.
Qed.

(** Once the message array reads back as [msgText], the rest of
    [logFormat] is the print into [dest]. *)
Lemma logFormat_assemble (clock : option string) (cat : option string)
    (msg msgText : string) :
  label_fits cat ->
  bindR (logFormat_msgField (Some msg) (to_int (Z.of_nat (String.length msg))))
        read_cstr = Ok msgText ->
  exists dateText,
    date_read clock dateText
    /\ (String.length dateText <= MAX_CHARS_IN_DATE)%nat
    /\ logFormat clock None cat (Some msg) = Ok None
    /\ forall capacity,
         logFormat clock (Some capacity) cat (Some msg)
         = if (String.length (log_line dateText (label_text cat) msgText) + 1
               <=? capacity)%nat
           then Ok (Some (log_line dateText (label_text cat) msgText))
           else UB OutOfBounds.
Proof.
  intros Hcat Hfield.
  destruct (dateField_read clock) as [dateText [Hdate Hdlen]].
  exists dateText. split; [exact Hdate |]. split; [exact Hdlen |].
  destruct (catField_fits cat Hcat) as (catField & Hc1 & Hc2 & _).
  apply bindR_Ok_inv in Hdate as [dateField [Hd1 Hd2]].
  apply bindR_Ok_inv in Hfield as [msgField [Hm1 Hm2]].
  split.
  - unfold logFormat, strlen. by rewrite bindR_Ok, Hc1, bindR_Ok, Hm1, bindR_Ok.
  - intros capacity. unfold logFormat, strlen.
    by rewrite bindR_Ok, Hc1, bindR_Ok, Hm1, bindR_Ok, Hd1, bindR_Ok, Hd2,
      bindR_Ok, Hc2, bindR_Ok, Hm2, bindR_Ok.
Qed.

Lemma logFormat_exact (clock : option string) (cat : option string)
    (msg : string) (c : ascii) :
  label_fits cat -> msg_fits msg c ->
  exists dateText,
    let line := log_line dateText (label_text cat) (punctuated msg c) in
    date_read clock dateText
    /\ String.length line
       = (String.length dateText + 12 + String.length (punctuated msg c))%nat
    /\ (String.length line + 8 <= sizeof_LogEntryStr)%nat
    /\ forall capacity,
         logFormat clock (Some capacity) cat (Some msg)
         = if (String.length line + 1 <=? capacity)%nat
           then Ok (Some line)
           else UB OutOfBounds.
Proof.
  intros Hcat (Hmsg & Hlast & Hlen).
  destruct (logFormat_assemble clock cat msg (punctuated msg c) Hcat)
    as (dateText & Hdate & Hdlen & _ & Hrun).
  { by apply msgField_read. }
  destruct (catField_fits cat Hcat) as (_ & _ & _ & Hllen).
  exists dateText. cbv zeta.
  split; [exact Hdate |]. split; [by apply log_line_length |].
  split; [| exact Hrun].
  rewrite log_line_length by done.
  assert (String.length (punctuated msg c) <= S (String.length msg))%nat.
  { unfold punctuated. destruct (is_terminal c); [lia |].
    rewrite length_append. simpl. lia. }
  unfold sizeof_LogEntryStr, MAX_CHARS_IN_FINAL_MSG, MAX_CHARS_IN_MSG,
    MAX_CHARS_IN_DATE, MAX_CHARS_IN_LOG_CAT in *. lia.
Qed.

(** X1.  On a label and a message that fit, the clock giving a C
    string, [logFormat] builds a line of the length of the date plus
    twelve plus the length of the message text, 102 characters at most,
    the date being the text of the clock when it fits the date array and
    empty otherwise; it writes the line exactly when [dest] has room for
    it and its terminator, and overruns [dest] otherwise.  A [LogEntryStr]
    is always large enough. *)
Theorem logFormat_buffer_need (clock : option string) (cat : option string)
    (msg : string) (c : ascii) :
  clock_ok clock -> label_fits cat -> msg_fits msg c ->
  let line := log_line (date_text clock) (label_text cat) (punctuated msg c) in
  String.length line
  = (String.length (date_text clock) + 12
     + String.length (punctuated msg c))%nat
  /\ (String.length line + 9 <= sizeof_LogEntryStr)%nat
  /\ forall capacity,
       logFormat clock (Some capacity) cat (Some msg)
       = if (String.length line + 1 <=? capacity)%nat
         then Ok (Some line)
         else UB OutOfBounds.
Proof.
  intros Hclock Hcat Hmsg.
  destruct (logFormat_exact clock cat msg c Hcat Hmsg)
    as (dateText & Hdate & Hlen & _ & Hrun).
  apply date_read_text in Hdate as ->; [| done].
  cbv zeta in *. split; [exact Hlen |]. split; [| exact Hrun].
  rewrite Hlen. pose proof (date_text_length clock) as Hdate.
  destruct Hmsg as (_ & _ & Hmax).
  assert (String.length (punctuated msg c) <= S (String.length msg))%nat.
  { unfold punctuated. destruct (is_terminal c); [lia |].
    rewrite length_append. simpl. lia. }
  unfold sizeof_LogEntryStr, MAX_CHARS_IN_FINAL_MSG, MAX_CHARS_IN_MSG,
    MAX_CHARS_IN_DATE, MAX_CHARS_IN_LOG_CAT in *. lia.
Qed.

Lemma hello_fits : msg_fits "Hello" "o"%char.
Proof.
  split; [reflexivity |]. split; [reflexivity |].
  unfold MAX_CHARS_IN_MSG. simpl. lia.
Defined.

Lemma info_label_fits : label_fits (Some "INFO").
Proof. split; [reflexivity | unfold MAX_CHARS_IN_LOG_CAT; simpl; lia]. Defined.

Lemma sample_clock_ok : clock_ok sample_clock.
Proof. reflexivity. Defined.

Lemma long_clock_ok : clock_ok long_clock.
Proof. reflexivity. Defined.

Lemma logFormat_buffer_need_witness :
  let line := log_line EmptyString "INFO:" "Hello." in
  String.length line
  = (String.length (date_text long_clock) + 12 + String.length "Hello.")%nat
  /\ (String.length line + 9 <= sizeof_LogEntryStr)%nat
  /\ forall capacity,
       logFormat long_clock (Some capacity) (Some "INFO") (Some "Hello")
       = if (String.length line + 1 <=? capacity)%nat
         then Ok (Some line)
         else UB OutOfBounds.
Proof.
  exact (logFormat_buffer_need long_clock (Some "INFO") "Hello" "o"%char
           long_clock_ok info_label_fits hello_fits).
Defined.

(** X2.  With a null [dest] nothing is generated and null is returned,
    for every label and message that fit. *)
Theorem logFormat_null_dest (clock : option string) (cat : option string)
    (msg : string) (c : ascii) :
  label_fits cat -> msg_fits msg c ->
  logFormat clock None cat (Some msg) = Ok None.
Proof.
  intros Hcat (Hmsg & Hlast & Hlen).
  destruct (logFormat_assemble clock cat msg (punctuated msg c) Hcat)
    as (dateText & _ & _ & Hnull & _); [by apply msgField_read | done].
Qed.

Lemma logFormat_null_dest_witness :
  logFormat sample_clock None (Some "INFO") (Some "Hello") = Ok None.
Proof.
  exact (logFormat_null_dest sample_clock (Some "INFO") "Hello" "o"%char
           info_label_fits hello_fits).
Defined.

(** X3.  The empty message is outside the domain of [logFormat]: the
    test of the last character reads [msg[-1]], whatever the clock, the
    buffer and the label are. *)
Theorem logFormat_empty_message (clock : option string) (dest : option nat)
    (cat : option string) :
  logFormat clock dest cat (Some EmptyString) = UB OutOfBounds.
Proof.
  unfold logFormat, strlen. rewrite bindR_Ok.
  destruct (logFormat_catField cat) as [catField|f] eqn:Hcat.
  - rewrite bindR_Ok. reflexivity.
  - apply catField_fault in Hcat as ->. reflexivity.
Qed.

(** X4.  The label is not checked: one of [MAX_CHARS_IN_LOG_CAT]
    characters or more does not fit the category array with its colon and
    terminator, and the print into that array overruns it. *)
Theorem logFormat_long_label (clock : option string) (dest : option nat)
    (cat msg : string) :
  (MAX_CHARS_IN_LOG_CAT <= String.length cat)%nat ->
  logFormat clock dest (Some cat) (Some msg) = UB OutOfBounds.
Proof.
  intros Hlong. unfold logFormat, strlen. rewrite bindR_Ok.
  unfold logFormat_catField, sprintf.
  assert (Hover : (String.length (cat +:+ ":") + 1
                   <=? length (char_array sizeof_LogCategory ""))%nat = false).
  { apply Nat.leb_gt. rewrite length_append. simpl.
    unfold MAX_CHARS_IN_LOG_CAT in Hlong. lia. }
  by rewrite Hover.
Qed.

Lemma logFormat_long_label_witness :
  logFormat sample_clock (Some sizeof_LogEntryStr) (Some "CRITICAL")
    (Some "Hello") = UB OutOfBounds.
Proof.
  apply (logFormat_long_label sample_clock (Some sizeof_LogEntryStr)
           "CRITICAL" "Hello").
  unfold MAX_CHARS_IN_LOG_CAT. simpl. lia.
Defined.

(** ** Messages longer than the message array, in general *)

Lemma forallb_take {A : Type} (p : A -> bool) (l : list A) (n : nat) :
  forallb p l = true -> forallb p (take n l) = true.
Proof.
  revert n. induction l as [|x l IH]; intros [|n]; simpl; try done.
  intros [Hx Hl]%andb_true_iff. rewrite Hx. by apply IH.
Qed.

Lemma truncated_bytes (msg : string) :
  bytes (truncated msg) = take MAX_CHARS_IN_MSG (bytes msg).
Proof. apply list_ascii_of_string_of_list_ascii. Qed.

Lemma truncated_length (msg : string) :
  (MAX_CHARS_IN_MSG <= String.length msg)%nat ->
  String.length (truncated msg) = MAX_CHARS_IN_MSG.
Proof.
  intros Hlong. unfold truncated.
  rewrite length_string_of_list_ascii, length_take, length_bytes. lia.
Qed.

Lemma msgField_read_long (msg : string) (c : ascii) :
  cstring msg -> last (bytes msg) = Some c -> is_terminal c = true ->
  (MAX_CHARS_IN_MSG < String.length msg)%nat ->
  Z.of_nat (String.length msg) < 2 ^ 31 ->
  bindR (logFormat_msgField (Some msg) (to_int (Z.of_nat (String.length msg))))
        read_cstr
  = Ok (truncated msg).
Proof.
  intros Hc Hlast Hterm Hlong Hint.
  rewrite to_int_small by lia.
  unfold logFormat_msgField, strncpy.
  replace (MAX_CHARS_IN_MSG <=? length (char_array sizeof_MsgStr "(null)"))%nat
    with true by reflexivity.
  rewrite bindR_Ok, (load_last _ c), bindR_Ok, Hterm by done.
  simpl negb. cbv iota. rewrite bindR_Ok.
  replace (drop MAX_CHARS_IN_MSG (char_array sizeof_MsgStr "(null)"))
    with [NUL; NUL] by reflexivity.
  rewrite take_app_le by (rewrite length_bytes; lia).
  rewrite <- truncated_bytes.
  apply read_cstr_bytes. unfold cstring. rewrite truncated_bytes.
  by apply forallb_take.
Qed.

(** X5.  A message of more than [MAX_CHARS_IN_MSG] and fewer than 2^31
    characters that ends in '.', '!' or '?' is cut to its first
    [MAX_CHARS_IN_MSG] characters: the line carries those and no
    punctuation is added (label fitting, clock giving a C string,
    destination of the size of [LogEntryStr] at least). *)
Theorem logFormat_truncates (clock : option string) (cat : option string)
    (msg : string) (c : ascii) :
  clock_ok clock -> label_fits cat -> cstring msg ->
  last (bytes msg) = Some c -> is_terminal c = true ->
  (MAX_CHARS_IN_MSG < String.length msg)%nat ->
  Z.of_nat (String.length msg) < 2 ^ 31 ->
  String.length (truncated msg) = MAX_CHARS_IN_MSG
  /\ forall capacity,
       (sizeof_LogEntryStr <= capacity)%nat ->
       logFormat clock (Some capacity) cat (Some msg)
       = Ok (Some (log_line (date_text clock) (label_text cat)
                     (truncated msg))).
Proof.
  intros Hclock Hcat Hc Hlast Hterm Hlong Hint.
  destruct (logFormat_assemble clock cat msg (truncated msg) Hcat)
    as (dateText & Hdate & Hdlen & _ & Hrun).
  { by apply (msgField_read_long msg c). }
  apply date_read_text in Hdate as ->; [| done].
  destruct (catField_fits cat Hcat) as (_ & _ & _ & Hllen).
  split; [apply truncated_length; lia |].
  intros capacity Hcap. rewrite Hrun.
  assert (Hroom : (String.length (log_line (date_text clock) (label_text cat)
                                    (truncated msg)) + 1 <=? capacity)%nat
                  = true).
  { apply Nat.leb_le. rewrite log_line_length by done.
    rewrite truncated_length by lia.
    unfold sizeof_LogEntryStr, MAX_CHARS_IN_FINAL_MSG, MAX_CHARS_IN_MSG,
      MAX_CHARS_IN_DATE, MAX_CHARS_IN_LOG_CAT in *. lia. }
  by rewrite Hroom.
Qed.

Lemma logFormat_truncates_witness :
  String.length (truncated sixty_two_and_stop) = MAX_CHARS_IN_MSG
  /\ forall capacity,
       (sizeof_LogEntryStr <= capacity)%nat ->
       logFormat sample_clock (Some capacity) (Some "INFO")
         (Some sixty_two_and_stop)
       = Ok (Some (log_line sample_date "INFO:"
                     (truncated sixty_two_and_stop))).
Proof.
  apply (logFormat_truncates sample_clock (Some "INFO") sixty_two_and_stop
           "."%char sample_clock_ok info_label_fits).
  - reflexivity.
  - reflexivity.
  - reflexivity.
  - unfold MAX_CHARS_IN_MSG. vm_compute. lia.
  - vm_compute. reflexivity.
Defined.

(** X6.  A message of more than [MAX_CHARS_IN_MSG] characters that does
    not end in '.', '!' or '?' makes [logFormat] write outside the message
    array, whatever the clock, the buffer and the label are. *)
Theorem logFormat_overrun (clock : option string) (dest : option nat)
    (cat : option string) (msg : string) (c : ascii) :
  last (bytes msg) = Some c -> is_terminal c = false ->
  (MAX_CHARS_IN_MSG < String.length msg)%nat ->
  Z.of_nat (String.length msg) < 2 ^ 31 ->
  logFormat clock dest cat (Some msg) = UB OutOfBounds.
Proof.
  intros Hlast Hterm Hlong Hint.
  unfold logFormat, strlen. rewrite bindR_Ok.
  destruct (logFormat_catField cat) as [catField|f] eqn:Hcat.
  - rewrite bindR_Ok. by rewrite (msgField_overrun msg c).
  - by apply catField_fault in Hcat as ->.
Qed.

Lemma logFormat_overrun_witness :
  logFormat sample_clock (Some sizeof_LogEntryStr) (Some "INFO")
    (Some sixty_one) = UB OutOfBounds.
Proof.
  apply (logFormat_overrun sample_clock (Some sizeof_LogEntryStr)
           (Some "INFO") sixty_one "a"%char).
  - reflexivity.
  - reflexivity.
  - unfold MAX_CHARS_IN_MSG. vm_compute. lia.
  - vm_compute. reflexivity.
Defined.

(** ** The default handlers *)

Lemma default_handlers_cases (h : Handler) (label : string) :
  (h, label) ∈ default_handlers ->
  (h = fn_defaultVerboseHandler /\ label = "VERBOSE")
  \/ (h = fn_defaultInfoHandler /\ label = "INFO")
  \/ (h = fn_defaultWarningHandler /\ label = "WARNING")
  \/ (h = fn_defaultErrorHandler /\ label = "ERROR")
  \/ (h = fn_defaultFatalHandler /\ label = "FATAL").
Proof.
  unfold default_handlers. intros H.
  repeat (apply elem_of_cons in H as [[= -> ->]|H]; [tauto |]).
  by apply elem_of_nil in H.
Qed.

(** X7.  A default handler called with a false condition, or while no
    sink is set, does nothing at all: the message is not even looked at,
    so a null or an oversized one is harmless there. *)
Theorem default_handler_gate (h : Handler) (label : string) (cond : Z)
    (msg : option string) (w : World) :
  (h, label) ∈ default_handlers ->
  truthy cond = false \/ logOutput w = None ->
  call h cond msg w = Ok (tt, w).
Proof.
  intros Hin Hgate. apply default_handlers_cases in Hin.
  destruct Hin as [[-> _]|[[-> _]|[[-> _]|[[-> _]|[-> _]]]]];
    unfold_handlers; unfold_M;
    (destruct Hgate as [Hcond|Hout];
     [ rewrite Hcond; reflexivity
     | rewrite Hout; by rewrite andb_false_r ]).
Qed.

Lemma default_handler_gate_witness :
  call fn_defaultFatalHandler 0 None started_world = Ok (tt, started_world)
  /\ call fn_defaultInfoHandler 1 (Some sixty_one) (initial_world sample_clock)
     = Ok (tt, initial_world sample_clock).
Proof.
  split.
  - apply (default_handler_gate fn_defaultFatalHandler "FATAL" 0 None
             started_world).
    + unfold default_handlers. do 4 apply list_elem_of_further.
      apply list_elem_of_here.
    + left. reflexivity.
  - apply (default_handler_gate fn_defaultInfoHandler "INFO" 1
             (Some sixty_one) (initial_world sample_clock)).
    + unfold default_handlers. apply list_elem_of_further, list_elem_of_here.
    + right. reflexivity.
Defined.

Lemma default_handler_line (h : Handler) (label : string) (cond : Z)
    (msg : string) (c : ascii) (f : FILE) (w : World) :
  (h, label) ∈ default_handlers ->
  truthy cond = true -> logOutput w = Some f -> msg_fits msg c ->
  exists dateText,
    date_read (clock w) dateText
    /\ call h cond (Some msg) w
       = Ok (tt, record (Fprintf f (log_line dateText (label +:+ ":")
                                      (punctuated msg c) +:+ LINE_END)) w).
Proof.
  intros Hin Hcond Hout Hmsg.
  assert (Hlabel : label_fits (Some label)).
  { apply default_labels_fit. apply default_handlers_cases in Hin.
    destruct Hin as [[_ ->]|[[_ ->]|[[_ ->]|[[_ ->]|[_ ->]]]]];
      repeat constructor. }
  destruct (logFormat_exact (clock w) (Some label) msg c Hlabel Hmsg)
    as (dateText & Hdate & _ & Hroom & Hrun).
  cbv zeta in Hroom, Hrun.
  specialize (Hrun sizeof_LogEntryStr).
  assert (Hfit : (String.length (log_line dateText (label_text (Some label))
                                   (punctuated msg c)) + 1
                  <=? sizeof_LogEntryStr)%nat = true)
    by (apply Nat.leb_le; lia).
  rewrite Hfit in Hrun. simpl label_text in Hrun.
  exists dateText. split; [exact Hdate |].
  apply default_handlers_cases in Hin.
  destruct Hin as [[-> ->]|[[-> ->]|[[-> ->]|[[-> ->]|[-> ->]]]]];
    unfold_handlers; unfold_M; rewrite Hcond, Hout; simpl;
    rewrite Hrun; reflexivity.
Qed.

Lemma default_handler_line_text (h : Handler) (label : string) (cond : Z)
    (msg : string) (c : ascii) (f : FILE) (w : World) :
  (h, label) ∈ default_handlers ->
  truthy cond = true -> logOutput w = Some f -> clock_ok (clock w) ->
  msg_fits msg c ->
  call h cond (Some msg) w
  = Ok (tt, record (Fprintf f (log_line (date_text (clock w)) (label +:+ ":")
                                 (punctuated msg c) +:+ LINE_END)) w).
Proof.
  intros Hin Hcond Hout Hclock Hmsg.
  destruct (default_handler_line h label cond msg c f w Hin Hcond Hout Hmsg)
    as (dateText & Hdate & Hcall).
  by apply date_read_text in Hdate as ->.
Qed.



Lemma call_returns_bounded (h : Handler) (cond : Z) (msg : string) (c : ascii)
    (w : World) :
  msg_fits msg c ->
  exists evs, call h cond (Some msg) w = Ok (tt, log_events evs w)
              /\ (length evs <= 1)%nat.
Proof.
  intros Hmsg.
  destruct h; unfold_handlers; unfold_M;
    try (eexists [_]; split; [reflexivity | simpl; lia]);
    (destruct (truthy cond), (logOutput w) as [out|]; simpl;
     [ | exists []; split; [by rewrite log_events_nil | simpl; lia] ..]);
    (match goal with
     | |- context [logFormat ?k ?d (Some ?l) ?m] =>
         destruct (logFormat_fits k sizeof_LogEntryStr (Some l) msg c)
           as [dateText [_ ->]];
         [apply default_labels_fit; repeat constructor | done | done |]
     end; eexists [_]; split; [reflexivity | simpl; lia]).
Qed.

(** X9.  On a message that fits, each of [verbose], [info], [warning],
    [error] and [fatal] returns in every state, whatever handler its slot
    holds; it adds at most one event to the trace and leaves the table,
    the sink, the flag and the exit registrations as they were. *)
Theorem emitters_return (index : nat) (emit : Z -> option string -> M unit)
    (cond : Z) (msg : string) (c : ascii) (w : World) :
  (index, emit) ∈ emitters -> msg_fits msg c ->
  exists evs,
    emit cond (Some msg) w = Ok (tt, log_events evs w)
    /\ (length evs <= 1)%nat.
Proof.
  intros Hin Hmsg. rewrite (emitters_are_dispatch index emit Hin).
  unfold dispatch, handler_at. unfold_M.
  destruct (default None (logHandlers w !! index)) as [h|].
  - by apply (call_returns_bounded h cond msg c).
  - exists []. split; [by rewrite log_events_nil | simpl; lia].
Qed.

Lemma emitters_return_witness :
  exists evs,
    fatal 1 (Some "Hello") started_world = Ok (tt, log_events evs started_world)
    /\ (length evs <= 1)%nat.
Proof.
  apply (emitters_return FATAL_IDX fatal 1 "Hello" "o"%char started_world).
  - unfold emitters. do 4 apply list_elem_of_further. apply list_elem_of_here.
  - exact hello_fits.
Defined.

(** ** What the operations leave alone *)

(** The objects other than the table and the trace. *)
Lemma setHandler_for_objects (n index : nat) (catValid : Z) (cat : string)
    (handler : option Handler) (w w' : World) (r : Z) :
  setHandler_for n index catValid cat handler w = Ok (r, w') ->
  initialized w' = initialized w /\ logOutput w' = logOutput w
  /\ exit_fns w' = exit_fns w /\ trace w' = trace w
  /\ length (logHandlers w') = length (logHandlers w).
Proof.
  revert index catValid w.
  induction n as [|n IH]; intros index catValid w.
  - simpl. by intros [= _ <-].
  - rewrite setHandler_for_S.
    destruct ((index <? NUM_LOG_CATS)%nat && negb (truthy catValid));
      [| by intros [= _ <-]].
    destruct (negb (truthy (strcmp cat (valid_cat index UPPER_INDEX)))
              || negb (truthy (strcmp cat (valid_cat index LOWER_INDEX))));
      unfold_M; intros H; apply IH in H; [| exact H].
    simpl in H. by rewrite length_insert in H.
Qed.

Lemma setHandler_objects (cat : option string) (handler : option Handler)
    (w w' : World) (r : Z) :
  setHandler cat handler w = Ok (r, w') ->
  initialized w' = initialized w /\ logOutput w' = logOutput w
  /\ exit_fns w' = exit_fns w
  /\ (exists evs, trace w' = trace w ++ evs)
  /\ length (logHandlers w') = length (logHandlers w).
Proof.
  unfold setHandler. unfold_M.
  set (loop := match cat with
               | Some cat =>
                   if truthy (initialized w)
                   then setHandler_for NUM_LOG_CATS 0 0 cat handler
                   else fun w => Ok (0, w)
               | None => fun w => Ok (0, w)
               end).
  assert (Hloop : forall r1 w1, loop w = Ok (r1, w1) ->
            initialized w1 = initialized w /\ logOutput w1 = logOutput w
            /\ exit_fns w1 = exit_fns w /\ trace w1 = trace w
            /\ length (logHandlers w1) = length (logHandlers w)).
  { subst loop. intros r1 w1.
    destruct cat as [cat|]; [destruct (truthy (initialized w)) |].
    - apply setHandler_for_objects.
    - by intros [= _ <-].
    - by intros [= _ <-]. }
  destruct (loop w) as [[r1 w1]|f] eqn:Hrun; [|done].
  destruct (Hloop r1 w1 eq_refl) as (Hi & Ho & He & Ht & Hl).
  destruct (negb (truthy r1)).
  - unfold warning.
    destruct (dispatch WARNING_IDX 1
                (Some "Invalid category provided. Handler is not set.") w1)
      as [[u w2]|f] eqn:Hw; [|done].
    apply dispatch_frame in Hw as [evs ->]. intros [= _ <-]. simpl.
    repeat split; try done. exists evs. by rewrite Ht.
  - intros [= _ <-]. repeat split; try done. exists []. by rewrite app_nil_r.
Qed.

(** X10.  Once the logger is initialized no operation of the interface
    changes the flag, the sink or the exit registrations, and the trace
    only grows: there is no way back to the uninitialized state and no way
    to change the sink. *)
Theorem initialized_is_final (op : Operation) (w w' : World) :
  initialized w <> 0 -> run op w = Ok w' ->
  initialized w' = initialized w /\ logOutput w' = logOutput w
  /\ exit_fns w' = exit_fns w
  /\ exists evs, trace w' = trace w ++ evs.
Proof.
  intros Hinit.
  assert (Hframe : forall evs,
            initialized (log_events evs w) = initialized w
            /\ logOutput (log_events evs w) = logOutput w
            /\ exit_fns (log_events evs w) = exit_fns w
            /\ exists evs', trace (log_events evs w) = trace w ++ evs').
  { intros evs. repeat split. by exists evs. }
  assert (Hemit : forall index cond msg,
            discard (dispatch index cond msg) w = Ok w' ->
            initialized w' = initialized w /\ logOutput w' = logOutput w
            /\ exit_fns w' = exit_fns w
            /\ exists evs, trace w' = trace w ++ evs).
  { intros index cond msg. unfold discard.
    destruct (dispatch index cond msg w) as [[u w1]|f] eqn:Hrun; [|done].
    intros [= <-]. apply dispatch_frame in Hrun as [evs ->]. apply Hframe. }
  destruct op as [dest|cat msg|cat handler|cond msg|cond msg|cond msg
                 |cond msg|cond msg];
    try apply Hemit; unfold run, discard.
  - rewrite initLog_again by done. intros [= <-].
    repeat split. exists []. by rewrite app_nil_r.
  - destruct (logger cat msg w) as [[u w1]|f] eqn:Hrun; [|done].
    intros [= <-]. apply logger_frame in Hrun as [evs ->]. apply Hframe.
  - destruct (setHandler cat handler w) as [[r w1]|f] eqn:Hrun; [|done].
    intros [= <-]. apply setHandler_objects in Hrun. tauto.
Qed.

Lemma initialized_is_final_witness :
  exists w',
    run (op_initLog (Some 2%nat)) started_world = Ok w'
    /\ initialized w' = initialized started_world
    /\ logOutput w' = logOutput started_world
    /\ exit_fns w' = exit_fns started_world
    /\ exists evs, trace w' = trace started_world ++ evs.
Proof.
  exists started_world. split; [reflexivity |].
  apply (initialized_is_final (op_initLog (Some 2%nat)) started_world
           started_world).
  - discriminate.
  - reflexivity.
Defined.

(** ** The life cycle *)

Lemma lifecycle_objects (w w' : World) :
  lifecycle w ->
  initialized w' = initialized w -> logOutput w' = logOutput w ->
  exit_fns w' = exit_fns w ->
  length (logHandlers w') = length (logHandlers w) ->
  lifecycle w'.
Proof.
  intros [Hwf Hstate] Hi Ho He Hl. unfold lifecycle, wf in *.
  rewrite Hi, Ho, He, Hl. done.
Qed.

Lemma lifecycle_step (op : Operation) (w w' : World) :
  lifecycle w -> run op w = Ok w' -> lifecycle w'.
Proof.
  intros Hlife.
  assert (Hemit : forall index cond msg,
            discard (dispatch index cond msg) w = Ok w' -> lifecycle w').
  { intros index cond msg. unfold discard.
    destruct (dispatch index cond msg w) as [[u w1]|f] eqn:Hrun; [|done].
    intros [= <-]. apply dispatch_frame in Hrun as [evs ->].
    by apply (lifecycle_objects w). }
  destruct op as [dest|cat msg|cat handler|cond msg|cond msg|cond msg
                 |cond msg|cond msg];
    try apply Hemit; unfold run, discard.
  - destruct (decide (initialized w = 0)) as [Hzero|Hset].
    + destruct dest as [f|].
      * rewrite initLog_fresh by done. intros [= <-].
        destruct Hlife as [Hwf [(_ & _ & Hexit)|(Hone & _)]]; [|congruence].
        split.
        -- unfold wf, fresh_start in *. simpl. by rewrite !length_insert.
        -- right. simpl. rewrite Hexit. eauto.
      * rewrite initLog_null. by intros [= <-].
    + rewrite initLog_again by done. by intros [= <-].
  - destruct (logger cat msg w) as [[u w1]|f] eqn:Hrun; [|done].
    intros [= <-]. apply logger_frame in Hrun as [evs ->].
    by apply (lifecycle_objects w).
  - destruct (setHandler cat handler w) as [[r w1]|f] eqn:Hrun; [|done].
    intros [= <-].
    apply setHandler_objects in Hrun as (Hi & Ho & He & _ & Hl).
    by apply (lifecycle_objects w).
Qed.

Lemma lifecycle_initial (clock : option string) :
  lifecycle (initial_world clock).
Proof. split; [reflexivity | by left]. Qed.

Lemma reachable_has_lifecycle (w : World) : reachable w -> lifecycle w.
Proof.
  intros (ops & clock & Hrun).
  assert (Hgen : forall w0, lifecycle w0 -> run_all ops w0 = Ok w -> lifecycle w).
  { clear Hrun. induction ops as [|op ops IH]; intros w0 Hlife; simpl.
    - by intros [= <-].
    - destruct (run op w0) as [w1|f] eqn:Hstep; [|done].
      apply IH. by apply (lifecycle_step op w0). }
  apply (Hgen (initial_world clock)); [apply lifecycle_initial | exact Hrun].
Qed.

(** X11.  In every state a program can reach the table has its
    [NUM_LOG_CATS] slots and the three objects agree: either the flag is
    0, no sink is set and nothing is registered for exit, or the flag is
    1, a sink is set and [closeLog] is registered exactly once. *)
Theorem reachable_lifecycle (w : World) : reachable w -> lifecycle w.
Proof. exact (reachable_has_lifecycle w). Qed.

Lemma started_world_reachable : reachable started_world.
Proof.
  exists [op_initLog (Some sample_stream)], sample_clock. reflexivity.
Defined.

Lemma reachable_lifecycle_witness : lifecycle started_world.
Proof. exact (reachable_lifecycle started_world started_world_reachable). Defined.



(** X13.  A second [initLog] is without effect, also with another stream:
    the sink of the first call stays and 1 is returned again. *)
Theorem initLog_twice (f : FILE) (dest : option FILE) (w : World) :
  initialized w = 0 ->
  (initLog (Some f) ;; initLog dest) w = initLog (Some f) w.
Proof.
  intros Hzero. unfold bind. rewrite initLog_fresh by done.
  by rewrite initLog_again.
Qed.

Lemma initLog_twice_witness :
  (initLog (Some sample_stream) ;; initLog (Some 2%nat))
    (initial_world sample_clock)
  = initLog (Some sample_stream) (initial_world sample_clock).
Proof.
  apply (initLog_twice sample_stream (Some 2%nat) (initial_world sample_clock)).
  reflexivity.
Defined.

(** ** setHandler, then the category *)

Lemma names_category_lt (cat : string) (i : nat) :
  names_category cat i -> (i < NUM_LOG_CATS)%nat.
Proof. by intros [Hlt _]. Qed.

Lemma info_names_category : names_category "info" INFO_IDX.
Proof. split; [unfold NUM_LOG_CATS, INFO_IDX; lia | right; reflexivity]. Defined.

Lemma INFO_names_category : names_category "INFO" INFO_IDX.
Proof. split; [unfold NUM_LOG_CATS, INFO_IDX; lia | left; reflexivity]. Defined.

Lemma info_in_emitters : (INFO_IDX, info) ∈ emitters.
Proof. unfold emitters. apply list_elem_of_further, list_elem_of_here. Defined.

(** X14.  After a successful [setHandler] the slot of the named category
    reads back the handler that was given, every other slot reads as
    before, the table keeps its size and nothing is printed. *)
Theorem setHandler_lookup (cat : string) (i : nat) (handler : option Handler)
    (w : World) :
  wf w -> truthy (initialized w) = true -> names_category cat i ->
  exists w',
    setHandler (Some cat) handler w = Ok (1, w')
    /\ wf w'
    /\ logHandlers w' !! i = Some handler
    /\ (forall j, j <> i -> logHandlers w' !! j = logHandlers w !! j)
    /\ trace w' = trace w.
Proof.
  intros Hwf Hinit Hcat.
  exists (set_logHandlers (<[i := handler]> (logHandlers w)) w).
  split; [by apply setHandler_hit |].
  apply names_category_lt in Hcat. unfold wf in *. simpl.
  split; [by rewrite length_insert |].
  split; [apply list_lookup_insert_eq; lia |].
  split; [| done].
  intros j Hne. by apply list_lookup_insert_ne.
Qed.

Lemma setHandler_lookup_witness :
  exists w',
    setHandler (Some "info") (Some (fn_custom 7)) started_world = Ok (1, w')
    /\ wf w'
    /\ logHandlers w' !! INFO_IDX = Some (Some (fn_custom 7))
    /\ (forall j, j <> INFO_IDX ->
          logHandlers w' !! j = logHandlers started_world !! j)
    /\ trace w' = trace started_world.
Proof.
  apply (setHandler_lookup "info" INFO_IDX (Some (fn_custom 7)) started_world).
  - reflexivity.
  - reflexivity.
  - exact info_names_category.
Defined.

(** X15.  The two spellings of a category name are the same name to
    [setHandler], and the last handler set is the one that stays: setting
    twice, under either spelling, is setting the second handler once. *)
Theorem setHandler_last_wins (c1 c2 : string) (i : nat)
    (h1 h2 : option Handler) (w : World) :
  truthy (initialized w) = true ->
  names_category c1 i -> names_category c2 i ->
  (setHandler (Some c1) h1 ;; setHandler (Some c2) h2) w
  = setHandler (Some c2) h2 w.
Proof.
  intros Hinit H1 H2. unfold bind.
  rewrite (setHandler_hit c1 i) by done.
  rewrite (setHandler_hit c2 i) by done.
  rewrite (setHandler_hit c2 i) by done.
  unfold set_logHandlers. simpl. by rewrite list_insert_insert_eq.
Qed.

Lemma setHandler_last_wins_witness :
  (setHandler (Some "INFO") None ;;
   setHandler (Some "info") (Some (fn_custom 7))) started_world
  = setHandler (Some "info") (Some (fn_custom 7)) started_world.
Proof.
  apply (setHandler_last_wins "INFO" "info" INFO_IDX None
           (Some (fn_custom 7)) started_world).
  - reflexivity.
  - exact INFO_names_category.
  - exact info_names_category.
Defined.

(** X16.  A category disabled with [setHandler(name, NULL)] is silent: the
    function of that category then does nothing, for every condition and
    every message, a null or an oversized one included. *)
Theorem disabled_category_is_silent (cat : string) (i : nat)
    (emit : Z -> option string -> M unit) (cond : Z) (msg : option string)
    (w : World) :
  truthy (initialized w) = true -> names_category cat i ->
  (i, emit) ∈ emitters ->
  (setHandler (Some cat) None ;; emit cond msg) w
  = Ok (tt, set_logHandlers (<[i := None]> (logHandlers w)) w).
Proof.
  intros Hinit Hcat Hin. unfold bind.
  rewrite (setHandler_hit cat i) by done.
  rewrite (emitters_are_dispatch i emit Hin).
  apply dispatch_empty. simpl.
  destruct (decide (i < length (logHandlers w))%nat) as [Hlt|Hge].
  - by rewrite list_lookup_insert_eq.
  - rewrite lookup_ge_None_2; [done |]. rewrite length_insert. lia.
Qed.

Lemma disabled_category_is_silent_witness :
  (setHandler (Some "info") None ;; info 1 None) started_world
  = Ok (tt, set_logHandlers (<[INFO_IDX := None]> (logHandlers started_world))
              started_world).
Proof.
  apply (disabled_category_is_silent "info" INFO_IDX info 1 None started_world).
  - reflexivity.
  - exact info_names_category.
  - exact info_in_emitters.
Defined.



(** X18.  The diagnostic of [setHandler] goes through the WARNING slot:
    while that slot is empty a rejected call, for a name that is no
    category or on an uninitialized logger, returns 0 and leaves no trace
    of any kind. *)
Theorem setHandler_silent_rejection (cat : string) (handler : option Handler)
    (w : World) :
  logHandlers w !! WARNING_IDX = Some None ->
  truthy (initialized w) = false \/ (forall i, ~ names_category cat i) ->
  setHandler (Some cat) handler w = Ok (0, w).
Proof.
  intros Hslot Hmiss. rewrite setHandler_miss by done.
  unfold bind, warning. rewrite dispatch_empty; [done |]. by rewrite Hslot.
Qed.

Lemma setHandler_silent_rejection_witness :
  setHandler (Some "INFO") (Some fn_defaultInfoHandler)
    (initial_world sample_clock)
  = Ok (0, initial_world sample_clock).
Proof.
  apply (setHandler_silent_rejection "INFO" (Some fn_defaultInfoHandler)
           (initial_world sample_clock)).
  - reflexivity.
  - left. reflexivity.
Defined.

(** ** logger, as the code has it *)

Lemma logger_text_fits :
  msg_fits "Invalid category provided. Message is not logged." "."%char.
Proof.
  split; [reflexivity |]. split; [reflexivity |].
  unfold MAX_CHARS_IN_MSG. simpl. lia.
Qed.

(** X19.  With a null category name an initialized [logger] drops the
    message unread and does what
    [warning(1, "Invalid category provided. Message is not logged.")]
    does, which returns. *)
Theorem logger_null_category (msg : option string) (w : World) :
  truthy (initialized w) = true ->
  exists evs,
    logger None msg w = Ok (tt, log_events evs w)
    /\ warning 1 (Some "Invalid category provided. Message is not logged.") w
       = Ok (tt, log_events evs w).
Proof.
  intros Hinit.
  destruct (dispatch_returns WARNING_IDX 1 _ _ w logger_text_fits)
    as [evs Hwarn].
  exists evs. unfold logger, warning. unfold_M. rewrite Hinit. simpl.
  by rewrite Hwarn.
Qed.

Lemma logger_null_category_witness :
  exists evs,
    logger None None started_world = Ok (tt, log_events evs started_world)
    /\ warning 1 (Some "Invalid category provided. Message is not logged.")
         started_world
       = Ok (tt, log_events evs started_world).
Proof. apply (logger_null_category None started_world). reflexivity. Defined.

(** X20.  With a name that is not null an initialized [logger] does what
    [verbose(1, msg)] does, whatever the name is: the test of its loop,
    [strcmp(..) || strcmp(..)], holds at the first row for every string. *)
Theorem logger_is_verbose (cat : string) (msg : option string) (w : World) :
  truthy (initialized w) = true ->
  logger (Some cat) msg w = verbose 1 msg w.
Proof. intros Hinit. by apply logger_named. Qed.

Lemma logger_is_verbose_witness :
  logger (Some "FATAL") (Some "Hello") started_world
  = verbose 1 (Some "Hello") started_world.
Proof.
  apply (logger_is_verbose "FATAL" (Some "Hello") started_world). reflexivity.
Defined.

(** ** logStart *)




(** X22.  [logStart] tests what [initLog] returns, not whether it
    initialized anything: on a logger that is already initialized it
    changes no setting and passes its message to [info] once more; with a
    null stream on an uninitialized logger it does nothing. *)
Theorem logStart_otherwise (dest : option FILE) (w : World) :
  (initialized w <> 0 ->
   logStart dest w
   = info 1 (Some "Logger has been successfully initialized.") w)
  /\ (initialized w = 0 -> logStart None w = Ok (tt, w)).
Proof.
  split.
  - intros Hset. unfold logStart, bind. rewrite initLog_again by done.
    assert (truthy (initialized w) = true) as ->; [|done].
    unfold truthy. apply negb_true_iff. by apply Z.eqb_neq.
  - intros Hzero. unfold logStart, bind. rewrite initLog_null.
    by rewrite Hzero.
Qed.

Lemma logStart_otherwise_witness :
  logStart (Some 2%nat) started_world
  = info 1 (Some "Logger has been successfully initialized.") started_world
  /\ logStart None (initial_world sample_clock)
     = Ok (tt, initial_world sample_clock).
Proof.
  split.
  - apply (proj1 (logStart_otherwise (Some 2%nat) started_world)).
    discriminate.
  - apply (proj2 (logStart_otherwise None (initial_world sample_clock))).
    reflexivity.
Defined.

(** * The claims on setHandler, the punctuation rule and the
      per-category functions, by what they make observable *)

Lemma warning_in_default_handlers :
  (fn_defaultWarningHandler, "WARNING") ∈ default_handlers.
Proof.
  unfold default_handlers. do 2 apply list_elem_of_further.
  apply list_elem_of_here.
Defined.

Lemma Warning_is_no_category (i : nat) : ~ names_category "Warning" i.
Proof.
  intros [Hlt Hcat]. unfold NUM_LOG_CATS in Hlt.
  do 5 (destruct i as [|i];
        [destruct Hcat as [Hcat|Hcat]; discriminate Hcat |]).
  lia.
Defined.

Lemma warning_names_category : names_category "warning" WARNING_IDX.
Proof.
  split; [unfold NUM_LOG_CATS, WARNING_IDX; lia | right; reflexivity].
Defined.

(** C6, as the code has it.  On a table of [NUM_LOG_CATS] slots:
    when the logger is initialized and the name is the uppercase or
    lowercase spelling of category [i], [setHandler] returns 1, slot [i]
    then reads the handler given (a null one included), every other slot
    reads as before and nothing is printed.  In every other case, a valid
    name on an uninitialized logger included, it returns 0 and leaves the
    table as it was, and the text "Invalid category provided. Handler is
    not set." goes to whatever the WARNING slot holds, with condition 1:
    a default handler prints it as one line on the sink, a function of the
    caller receives it, and an empty slot, which is what an uninitialized
    logger has, lets nothing out. *)
Theorem setHandler_matches_or_warns (cat : string) (handler : option Handler)
    (w : World) :
  wf w ->
  (forall i, truthy (initialized w) = true -> names_category cat i ->
     exists w',
       setHandler (Some cat) handler w = Ok (1, w')
       /\ logHandlers w' !! i = Some handler
       /\ (forall j, j <> i -> logHandlers w' !! j = logHandlers w !! j)
       /\ trace w' = trace w)
  /\ (truthy (initialized w) = false \/ (forall i, ~ names_category cat i) ->
      exists w',
        setHandler (Some cat) handler w = Ok (0, w')
        /\ logHandlers w' = logHandlers w
        /\ (forall h label f,
              logHandlers w !! WARNING_IDX = Some (Some h) ->
              (h, label) ∈ default_handlers ->
              logOutput w = Some f -> clock_ok (clock w) ->
              trace w'
              = trace w
                ++ [Fprintf f
                      (log_line (date_text (clock w)) (label +:+ ":")
                         "Invalid category provided. Handler is not set."
                       +:+ LINE_END)])
        /\ (forall id,
              logHandlers w !! WARNING_IDX = Some (Some (fn_custom id)) ->
              trace w'
              = trace w
                ++ [CustomCall id 1
                      (Some "Invalid category provided. Handler is not set.")])
        /\ (logHandlers w !! WARNING_IDX = Some None -> trace w' = trace w)
        /\ (initialized w = 0 -> table_guarded w -> trace w' = trace w)).
Proof.
  intros Hwf. split.
  - intros i Hinit Hcat.
    exists (set_logHandlers (<[i := handler]> (logHandlers w)) w).
    split; [by apply setHandler_hit |].
    apply names_category_lt in Hcat. unfold wf in Hwf. simpl.
    split; [apply list_lookup_insert_eq; lia |].
    split; [| done]. intros j Hne. by apply list_lookup_insert_ne.
  - intros Hmiss. rewrite setHandler_miss by done.
    destruct (dispatch_returns WARNING_IDX 1 _ _ w warning_text_fits)
      as [evs Hwarn].
    exists (log_events evs w). unfold warning, bind, ret. rewrite Hwarn.
    split; [done |]. split; [done |].
    assert (Hsame : forall w1,
              dispatch WARNING_IDX 1
                (Some "Invalid category provided. Handler is not set.") w
              = Ok (tt, w1) ->
              trace (log_events evs w) = trace w1).
    { intros w1 Hrun. rewrite Hrun in Hwarn. by injection Hwarn as ->. }
    split; [| split; [| split]].
    + intros h label f Hslot Hin Hout Hclock.
      apply (Hsame (record
                      (Fprintf f
                         (log_line (date_text (clock w)) (label +:+ ":")
                            "Invalid category provided. Handler is not set."
                          +:+ LINE_END)) w)).
      rewrite (dispatch_call WARNING_IDX h) by (by rewrite Hslot).
      apply (default_handler_line_text h label 1 _ "."%char f w);
        [done | reflexivity | done | done | exact warning_text_fits].
    + intros id Hslot.
      apply (Hsame (record
                      (CustomCall id 1
                         (Some "Invalid category provided. Handler is not set."))
                      w)).
      by rewrite (dispatch_call WARNING_IDX (fn_custom id))
        by (by rewrite Hslot).
    + intros Hslot. rewrite (Hsame w); [done |].
      apply dispatch_empty. by rewrite Hslot.
    + intros Hzero Hinv. rewrite (Hsame w); [done |].
      by apply guarded_dispatch.
Qed.

Lemma setHandler_matches_or_warns_witness :
  (exists w',
     setHandler (Some "warning") None started_world = Ok (1, w')
     /\ logHandlers w' !! WARNING_IDX = Some None
     /\ trace w' = trace started_world)
  /\ (exists w',
        setHandler (Some "Warning") None started_world = Ok (0, w')
        /\ logHandlers w' = logHandlers started_world
        /\ trace w'
           = [Fprintf sample_stream
                (log_line sample_date "WARNING:"
                   "Invalid category provided. Handler is not set."
                 +:+ LINE_END)]).
Proof.
  assert (Hwf : wf started_world) by reflexivity.
  split.
  - destruct (proj1 (setHandler_matches_or_warns "warning" None started_world
                       Hwf) WARNING_IDX eq_refl warning_names_category)
      as (w' & Hrun & Hslot & _ & Htrace).
    exists w'. by repeat split.
  - destruct (proj2 (setHandler_matches_or_warns "Warning" None started_world
                       Hwf) (or_intror Warning_is_no_category))
      as (w' & Hrun & Htable & Hline & _).
    exists w'. split; [exact Hrun |]. split; [exact Htable |].
    apply (Hline fn_defaultWarningHandler "WARNING" sample_stream);
      [reflexivity | exact warning_in_default_handlers | reflexivity
      | exact sample_clock_ok].
Defined.

(** C6 as stated fails: on a logger that is not initialized
    [setHandler] with a valid name returns 0 and emits nothing, no
    WARNING included, the table being empty. *)
Lemma setHandler_uninitialized_emits_nothing :
  names_category "INFO" INFO_IDX
  /\ initialized (initial_world sample_clock) = 0
  /\ setHandler (Some "INFO") (Some fn_defaultInfoHandler)
       (initial_world sample_clock)
     = Ok (0, initial_world sample_clock)
  /\ events (setHandler (Some "INFO") (Some fn_defaultInfoHandler)
               (initial_world sample_clock))
     = Ok [].
Proof.
  split; [exact INFO_names_category |]. repeat split; reflexivity.
Qed.

(** C8, as the code has it.  For a non-empty message of at most
    [MAX_CHARS_IN_MSG] characters, a label that is null or shorter than
    [MAX_CHARS_IN_LOG_CAT] and a buffer of the size of [LogEntryStr] or
    more, the line ends in the message itself when its last character is
    '.', '!' or '?', and in the message followed by one '.' otherwise;
    before it come the date, two tabs, the padded label and two tabs, the
    date being the text of the clock when that is a C string that fits
    the date array, and empty when it does not fit. *)
Theorem logFormat_terminal_punctuation (clock : option string)
    (capacity : nat) (cat : option string) (msg : string) (c : ascii) :
  label_fits cat -> msg_fits msg c ->
  (sizeof_LogEntryStr <= capacity)%nat ->
  exists dateText,
    date_read clock dateText
    /\ (clock_ok clock -> dateText = date_text clock)
    /\ logFormat clock (Some capacity) cat (Some msg)
       = Ok (Some (log_line dateText (label_text cat)
                     (if is_terminal c then msg else msg +:+ "."))).
Proof.
  intros Hcat Hmsg Hcap.
  destruct (logFormat_exact clock cat msg c Hcat Hmsg)
    as (dateText & Hdate & _ & Hroom & Hrun).
  exists dateText. split; [exact Hdate |].
  split; [intros Hclock; by apply date_read_text |].
  cbv zeta in Hroom, Hrun. rewrite Hrun.
  assert (Hfit : (String.length (log_line dateText (label_text cat)
                                   (punctuated msg c)) + 1 <=? capacity)%nat
                 = true) by (apply Nat.leb_le; lia).
  by rewrite Hfit.
Qed.

Lemma logFormat_terminal_punctuation_witness :
  exists dateText,
    date_read sample_clock dateText
    /\ (clock_ok sample_clock -> dateText = sample_date)
    /\ logFormat sample_clock (Some sizeof_LogEntryStr) (Some "INFO")
         (Some "Hello")
       = Ok (Some (log_line dateText "INFO:" "Hello.")).
Proof.
  apply (logFormat_terminal_punctuation sample_clock sizeof_LogEntryStr
           (Some "INFO") "Hello" "o"%char).
  - exact info_label_fits.
  - exact hello_fits.
  - lia.
Defined.

(** C8 as stated fails for a message the message array has no room for:
    one of sixty-two characters that ends in a full stop is not rendered
    unmodified, the text in the line having sixty-one characters at most;
    and it fails for a label of eight characters, which does not fit the
    category array. *)
Lemma logFormat_cuts_long_message :
  is_terminal "."%char = true
  /\ last (bytes sixty_two_and_stop) = Some "."%char
  /\ String.length sixty_two_and_stop = 62%nat
  /\ (exists rendered,
        logFormat sample_clock (Some sizeof_LogEntryStr) (Some "INFO")
          (Some sixty_two_and_stop)
        = Ok (Some (log_line sample_date "INFO:" rendered))
        /\ (String.length rendered <= MAX_CHARS_IN_MSG + 1)%nat)
  /\ logFormat sample_clock (Some sizeof_LogEntryStr) (Some "INFO")
       (Some sixty_two_and_stop)
     <> Ok (Some (log_line sample_date "INFO:" sixty_two_and_stop))
  /\ logFormat sample_clock (Some sizeof_LogEntryStr) (Some "CRITICAL")
       (Some "Hello.")
     = UB OutOfBounds.
Proof.
  split; [reflexivity |]. split; [reflexivity |]. split; [reflexivity |].
  split.
  { exists sixty. split; [vm_compute; reflexivity |].
    unfold MAX_CHARS_IN_MSG. vm_compute. lia. }
  split; [vm_compute; discriminate | vm_compute; reflexivity].
Qed.





